(** * CodeSystemExporter and the Extension entity of SUSHI, embedded in Rocq

    The development follows the TypeScript sources:
    - [CodeSystemExporter] (setMetadata, setConcepts, setCaretRules,
      setCodeCaretRules, findConceptPath, countConcepts, updateCount,
      exportCodeSystem, export);
    - [Extension] (src/fshtypes/Extension.ts).

    Objects that the exporter mutates in place are passed and returned
    explicitly; the logger, the output package and the state of the external
    collaborators live in one record that every operation threads. *)

From Stdlib Require Import List String Ascii ZArith Arith Lia Bool.
From Stdlib Require Import DecimalString.
From Stdlib Require DecimalNat DecimalFacts.
Import ListNotations.
Local Open Scope string_scope.

(** ** JavaScript helpers *)

(** [Array.prototype.findIndex], together with the element found:
    the first position whose element satisfies [p]. *)
Fixpoint findFrom {A : Type} (p : A -> bool) (l : list A) (i : nat)
  : option (nat * A) :=
  match l with
  | [] => None
  | x :: rest => if p x then Some (i, x) else findFrom p rest (S i)
  end.

Definition find {A : Type} (p : A -> bool) (l : list A) : option (nat * A) :=
  findFrom p l 0.

Definition findIndex {A : Type} (p : A -> bool) (l : list A) : option nat :=
  option_map fst (find p l).

(** Assignment to the slot [i] of an array that has such a slot. *)
Fixpoint setAt {A : Type} (i : nat) (x : A) (l : list A) : list A :=
  match l, i with
  | [], _ => []
  | _ :: rest, O => x :: rest
  | y :: rest, S j => y :: setAt j x rest
  end.

(** [array.join(sep)] *)
Definition join (sep : string) (parts : list string) : string :=
  String.concat sep parts.

(** Template-literal rendering of numbers that hold an integer. *)
Definition showNat (n : nat) : string := NilZero.string_of_uint (Nat.to_uint n).
Definition showZ (z : Z) : string := NilZero.string_of_int (Z.to_int z).

(** A word between double quotes. *)
Definition quoted (s : string) : string :=
  String "034"%char (s ++ String "034"%char EmptyString).

(** JavaScript truthiness of an optional string: defined and not empty. *)
Definition truthy (s : option string) : bool :=
  match s with
  | Some v => negb (v =? EmptyString)
  | None => false
  end.

(** [a === b] on values that are a string or [undefined]. *)
Definition sameOpt (a b : option string) : bool :=
  match a, b with
  | Some x, Some y => x =? y
  | None, None => true
  | _, _ => false
  end.

(** ** Source locations and diagnostics levels *)

Record SourceInfo := mkSourceInfo {
  file : string;
  line : nat;
  column : nat
}.

Inductive Level := LError | LWarn | LInfo.

(** ** The concept forest *)

(** [CodeSystemConcept]: [concept] is an optional array, absent until a child
    is looked for under the node. *)
#[warnings="-register-all"]
Inductive CodeSystemConcept := mkConcept {
  code : string;
  display : option string;
  definition : option string;
  concept : option (list CodeSystemConcept)
}.

(** [x ?? []] *)
Definition orEmpty (o : option (list CodeSystemConcept)) : list CodeSystemConcept :=
  match o with
  | Some l => l
  | None => []
  end.

Definition withConcept (c : CodeSystemConcept) (children : list CodeSystemConcept)
  : CodeSystemConcept :=
  mkConcept (code c) (display c) (definition c) (Some children).

Definition hasCode (wanted : string) (c : CodeSystemConcept) : bool :=
  code c =? wanted.

(** [countConcepts(c.concept)] for one node [c]. *)
Fixpoint countBelow (c : CodeSystemConcept) : nat :=
  match c with
  | mkConcept _ _ _ None => 0
  | mkConcept _ _ _ (Some concepts) =>
      List.length concepts
      + fold_left (fun sum next => sum + next) (map countBelow concepts) 0
  end.

(** [countConcepts(concepts)] *)
Definition countConcepts (concepts : option (list CodeSystemConcept)) : nat :=
  match concepts with
  | Some l =>
      List.length l + fold_left (fun sum next => sum + next) (map countBelow l) 0
  | None => 0
  end.

(** [ConceptRule] *)
Record ConceptRule := mkConceptRule {
  ruleCode : string;
  ruleDisplay : option string;
  ruleDefinition : option string;
  hierarchy : list string;
  conceptSource : SourceInfo
}.

(** The object literal built at the top of the [forEach] callback of
    [setConcepts]. *)
Definition newConcept (r : ConceptRule) : CodeSystemConcept :=
  mkConcept (ruleCode r)
            (if truthy (ruleDisplay r) then ruleDisplay r else None)
            (if truthy (ruleDefinition r) then ruleDefinition r else None)
            None.

(** The [for ... of concept.hierarchy] loop of [setConcepts] followed by the
    final [push], started at [container].  The result is the container after
    the loop and, when an ancestor was not found, the code that was looked
    for.  An ancestor that is found gets its [concept] array created before
    the walk goes on below it, also when a later ancestor is missing. *)
Fixpoint walkAndPush (ancestors : list string) (fresh : CodeSystemConcept)
    (container : list CodeSystemConcept)
  : list CodeSystemConcept * option string :=
  match ancestors with
  | [] => ((container ++ [fresh])%list, None)
  | ancestorCode :: rest =>
      match find (hasCode ancestorCode) container with
      | Some (i, ancestorConcept) =>
          let (below, missing) :=
            walkAndPush rest fresh (orEmpty (concept ancestorConcept)) in
          (setAt i (withConcept ancestorConcept below) container, missing)
      | None => (container, Some ancestorCode)
      end
  end.

(** [findConceptPath], the loop over [codePath]: the positional indices, or
    [None] when some step is not found. *)
Fixpoint conceptIndices (conceptList : list CodeSystemConcept) (codePath : list string)
  : option (list nat) :=
  match codePath with
  | [] => Some []
  | codeStep :: rest =>
      match find (hasCode codeStep) conceptList with
      | Some (stepIndex, found) =>
          option_map (cons stepIndex) (conceptIndices (orEmpty (concept found)) rest)
      | None => None
      end
  end.


(** ** Rules, entities and documents *)

(** Types that belong to the external collaborators of the exporter. *)
Class Domain := {
  (** state owned by the collaborators (fisher, schema trees, rule sets) *)
  World : Type;
  (** the value carried by a caret rule *)
  Value : Type;
  (** [StructureDefinition] *)
  StructureDefinition : Type;
  (** what [validateValueAtPath] returns: [{ assignedValue, pathParts }] *)
  Resolved : Type;
  (** the properties of a [CodeSystem] that the exporter never names *)
  Other : Type
}.

(** What can be thrown: the exporter's own [CannotResolvePathError], or
    whatever a collaborator throws, of which only [message] is used. *)
Inductive Exn :=
| CannotResolvePathError (path : string)
| Failure (message : string).

Section DataModel.
Context {D : Domain}.

(** [CaretValueRule] *)
Record CaretValueRule := mkCaretValueRule {
  caretPath : string;
  value : Value;
  caretSource : SourceInfo
}.

(** [CodeCaretValueRule] *)
Record CodeCaretValueRule := mkCodeCaretValueRule {
  codePath : list string;
  conceptCaretPath : string;
  conceptValue : Value;
  codeCaretSource : SourceInfo
}.

(** The rules of a [FshCodeSystem], told apart by [instanceof]. *)
Inductive Rule :=
| RCaretValue (r : CaretValueRule)
| RConcept (r : ConceptRule)
| RCodeCaretValue (r : CodeCaretValueRule)
| RInsert (ruleSet : string).

(** [FshCodeSystem] *)
Record FshCodeSystem := mkFshCodeSystem {
  name : string;
  id : string;
  title : option string;
  description : option string;
  rules : list Rule;
  sourceInfo : SourceInfo
}.

(** [CodeSystem]: the properties the exporter reads or writes, and the rest. *)
Record CodeSystem := mkCodeSystem {
  csName : option string;
  csId : option string;
  csTitle : option string;
  csDescription : option string;
  csVersion : option string;
  csUrl : option string;
  csContent : option string;
  csCount : option Z;
  csConcept : option (list CodeSystemConcept);
  csOther : Other
}.

(** [tank.config] *)
Record Configuration := mkConfiguration {
  version : option string;
  canonical : string
}.

(** [FSHTank] *)
Record FSHTank := mkFSHTank {
  config : Configuration;
  getAllCodeSystems : list FshCodeSystem
}.

(** Steps of the export of one entity. *)
Inductive Phase :=
| Init
| MetadataSet
| CaretRulesApplied
| ConceptsBuilt
| ConceptCaretRulesApplied
| CountReconciled
| Exported.

(** What the exporter does, in the order it does it.  The trace is not part
    of the program: it records that a step of the export is reached, that
    [resolveSoftIndexing] was called on [given] and left [resolved], that
    [validateValueAtPath] is called, and that the loop body of a rule starts. *)
Inductive Event :=
| Reached (p : Phase)
| SoftIndexesResolved (given resolved : list CaretValueRule)
| CallValidateValueAtPath (path : string) (v : Value)
| ApplyRule (r : Rule).

(** One call of the logger, with the arguments the message is built from.
    The first six are the calls the exporter makes itself.  [Reported] is a
    call made by [setName] or [setId], which are handed the location of the
    entity to log at: the exporter does not choose its level or its text. *)
Inductive Diagnostic :=
| MissingAncestor (ancestorCode conceptCode : string) (at_ : SourceInfo)
| RuleFailure (e : Exn) (at_ : SourceInfo)
| DuplicateId (id_ : option string) (at_ : SourceInfo)
| CountMismatch (count : option Z) (actualCount : option nat) (at_ : SourceInfo)
| EntityFailure (e : Exn) (at_ : SourceInfo)
| Converted (n : nat)
| Reported (level : Level) (text : string) (at_ : SourceInfo).

(** The exporter's view of the world: the collaborators' state, the
    [codeSystems] of the package, the logger and the trace. *)
Record State := mkState {
  world : World;
  codeSystems : list CodeSystem;
  log : list Diagnostic;
  trace : list Event
}.

End DataModel.

(** ** The collaborators

    Code of the repository that the exporter calls and whose text is not
    part of this development.  Each one may change the collaborators' state.
    The ones called inside a [try], and the lookup of the CodeSystem
    definition, may throw: they give an [Exn] instead of a result.  The other
    ones are taken to return.  [setName] and [setId] receive the location of
    the entity, which they have no use for but to log there: they give, with
    the code system as they leave it (whose name and id they choose), the
    levels and texts they pass to the logger, in order.  The other ones are
    handed no location and what goes wrong in them is what they throw: they
    are taken to leave the logger alone. *)
Class Collaborators {D : Domain} := {
  (** [new CodeSystem()] *)
  emptyCodeSystem : CodeSystem;
  (** [codeSystem.setName(name, sourceInfo)] *)
  setName :
    string -> SourceInfo -> CodeSystem -> World
    -> CodeSystem * list (Level * string) * World;
  (** [codeSystem.setId(id, sourceInfo)] *)
  setId :
    string -> SourceInfo -> CodeSystem -> World
    -> CodeSystem * list (Level * string) * World;
  (** [applyInsertRules(fshDefinition, tank)] rewrites [fshDefinition.rules] *)
  applyInsertRules : FshCodeSystem -> FSHTank -> World -> list Rule * World;
  (** [StructureDefinition.fromJSON(fisher.fishForFHIR('CodeSystem', Type.Resource))] *)
  fishStructureDefinition : World -> (Exn + StructureDefinition) * World;
  (** [resolveSoftIndexing(rules)] rewrites the rules it is given *)
  resolveSoftIndexing : list CaretValueRule -> World -> list CaretValueRule * World;
  (** [csStructureDefinition.validateValueAtPath(path, value, fisher)] *)
  validateValueAtPath :
    StructureDefinition -> string -> Value -> World -> (Exn + Resolved) * World;
  (** [setPropertyOnInstance(codeSystem, pathParts, assignedValue, fisher)]:
      the instance as the call leaves it, and what it threw, if it did *)
  setPropertyOnInstance :
    CodeSystem -> Resolved -> World -> (CodeSystem * option Exn) * World;
  (** the message of a [CannotResolvePathError] built from a path *)
  cannotResolvePathMessage : string -> string
}.

(** ** Control flow: a state monad in which a call may throw

    What was done before a throw stays done, as in JavaScript. *)

Inductive Outcome (A : Type) :=
| Returned (a : A)
| Threw (e : Exn).
Arguments Returned {A} a.
Arguments Threw {A} e.

Section Exporter.
Context {D : Domain} {C : Collaborators}.

Definition M (A : Type) : Type := State -> Outcome A * State.

Definition ret {A : Type} (a : A) : M A := fun st => (Returned a, st).

Definition bind {A B : Type} (m : M A) (k : A -> M B) : M B :=
  fun st =>
    match m st with
    | (Returned a, st') => k a st'
    | (Threw e, st') => (Threw e, st')
    end.

Definition throw {A : Type} (e : Exn) : M A := fun st => (Threw e, st).

(** [try { body } catch (e) { handler e }] *)
Definition tryCatch {A : Type} (body : M A) (handler : Exn -> M A) : M A :=
  fun st =>
    match body st with
    | (Returned a, st') => (Returned a, st')
    | (Threw e, st') => handler e st'
    end.

Local Notation "x <- m ;; k" := (bind m (fun x => k))
  (at level 61, m at next level, right associativity).
Local Notation "m ;;; k" := (bind m (fun _ => k))
  (at level 61, right associativity).

(** A call of the logger. *)
Definition logger (d : Diagnostic) : M unit :=
  fun st =>
    (Returned tt, mkState (world st) (codeSystems st) (log st ++ [d]) (trace st)).

Definition emit (ev : Event) : M unit :=
  fun st =>
    (Returned tt, mkState (world st) (codeSystems st) (log st) (trace st ++ [ev])).

(** A call of a collaborator that returns. *)
Definition call {A : Type} (f : World -> A * World) : M A :=
  fun st =>
    let (a, w) := f (world st) in
    (Returned a, mkState w (codeSystems st) (log st) (trace st)).

(** A call of a collaborator that returns and may have logged at [at_]. *)
Definition report {A : Type} (at_ : SourceInfo)
    (f : World -> A * list (Level * string) * World) : M A :=
  fun st =>
    let '(a, said, w) := f (world st) in
    (Returned a,
     mkState w (codeSystems st)
       (log st ++ map (fun m => Reported (fst m) (snd m) at_) said)
       (trace st)).

(** A call of a collaborator outside any [try]: what it throws goes on. *)
Definition callOrThrow {A : Type} (f : World -> (Exn + A) * World) : M A :=
  r <- call f ;;
  match r with
  | inl e => throw e
  | inr a => ret a
  end.

(** [pkg.codeSystems.push(codeSystem)] *)
Definition push (codeSystem : CodeSystem) : M unit :=
  fun st =>
    (Returned tt,
     mkState (world st) (codeSystems st ++ [codeSystem]) (log st) (trace st)).

Definition getCodeSystems : M (list CodeSystem) :=
  fun st => (Returned (codeSystems st), st).

(** ** Assignments to the properties of a [CodeSystem] *)

Definition withTitle (cs : CodeSystem) (v : option string) : CodeSystem :=
  mkCodeSystem (csName cs) (csId cs) v (csDescription cs) (csVersion cs)
    (csUrl cs) (csContent cs) (csCount cs) (csConcept cs) (csOther cs).

Definition withDescription (cs : CodeSystem) (v : option string) : CodeSystem :=
  mkCodeSystem (csName cs) (csId cs) (csTitle cs) v (csVersion cs)
    (csUrl cs) (csContent cs) (csCount cs) (csConcept cs) (csOther cs).

Definition withVersion (cs : CodeSystem) (v : option string) : CodeSystem :=
  mkCodeSystem (csName cs) (csId cs) (csTitle cs) (csDescription cs) v
    (csUrl cs) (csContent cs) (csCount cs) (csConcept cs) (csOther cs).

Definition withUrl (cs : CodeSystem) (v : option string) : CodeSystem :=
  mkCodeSystem (csName cs) (csId cs) (csTitle cs) (csDescription cs)
    (csVersion cs) v (csContent cs) (csCount cs) (csConcept cs) (csOther cs).

Definition withCount (cs : CodeSystem) (v : option Z) : CodeSystem :=
  mkCodeSystem (csName cs) (csId cs) (csTitle cs) (csDescription cs)
    (csVersion cs) (csUrl cs) (csContent cs) v (csConcept cs) (csOther cs).

Definition withConcepts (cs : CodeSystem) (v : option (list CodeSystemConcept))
  : CodeSystem :=
  mkCodeSystem (csName cs) (csId cs) (csTitle cs) (csDescription cs)
    (csVersion cs) (csUrl cs) (csContent cs) (csCount cs) v (csOther cs).

(** [`${x}`] for a string that may be [undefined]. *)
Definition showOpt (s : option string) : string :=
  match s with
  | Some v => v
  | None => "undefined"
  end.

(** ** The exporter *)

Variable tank : FSHTank.

(** [setMetadata] *)
Definition setMetadata (codeSystem : CodeSystem) (fshDefinition : FshCodeSystem)
  : M CodeSystem :=
  codeSystem <- report (sourceInfo fshDefinition)
                  (setName (name fshDefinition) (sourceInfo fshDefinition) codeSystem) ;;
  codeSystem <- report (sourceInfo fshDefinition)
                  (setId (id fshDefinition) (sourceInfo fshDefinition) codeSystem) ;;
  let codeSystem :=
    if truthy (title fshDefinition)
    then withTitle codeSystem (title fshDefinition) else codeSystem in
  let codeSystem :=
    if truthy (description fshDefinition)
    then withDescription codeSystem (description fshDefinition) else codeSystem in
  let codeSystem := withVersion codeSystem (version (config tank)) in
  ret (withUrl codeSystem
         (Some (canonical (config tank) ++ "/CodeSystem/" ++ showOpt (csId codeSystem)))).

(** The callback of [concepts.forEach] in [setConcepts], on the array that
    [codeSystem.concept] holds. *)
Definition addConcept (rule : ConceptRule) (forest : list CodeSystemConcept)
  : M (list CodeSystemConcept) :=
  emit (ApplyRule (RConcept rule)) ;;;
  let (forest', missing) := walkAndPush (hierarchy rule) (newConcept rule) forest in
  match missing with
  | Some ancestorCode =>
      logger (MissingAncestor ancestorCode (ruleCode rule) (conceptSource rule)) ;;;
      ret forest'
  | None => ret forest'
  end.

Fixpoint forEachConcept (concepts : list ConceptRule) (forest : list CodeSystemConcept)
  : M (list CodeSystemConcept) :=
  match concepts with
  | [] => ret forest
  | rule :: rest =>
      forest' <- addConcept rule forest ;;
      forEachConcept rest forest'
  end.

(** [setConcepts] *)
Definition setConcepts (codeSystem : CodeSystem) (concepts : list ConceptRule)
  : M CodeSystem :=
  match concepts with
  | [] => ret codeSystem
  | _ :: _ =>
      forest <- forEachConcept concepts [] ;;
      ret (withConcepts codeSystem (Some forest))
  end.

(** The body of the [try] in [setCaretRules] and, after the concept path is
    found, in [setCodeCaretRules], with its [catch]. *)
Definition assign (csStructureDefinition : StructureDefinition) (path : string)
    (v : Value) (at_ : SourceInfo) (codeSystem : CodeSystem) : M CodeSystem :=
  emit (CallValidateValueAtPath path v) ;;;
  validated <- call (validateValueAtPath csStructureDefinition path v) ;;
  match validated with
  | inl e => logger (RuleFailure e at_) ;;; ret codeSystem
  | inr resolved =>
      done <- call (setPropertyOnInstance codeSystem resolved) ;;
      match snd done with
      | Some e => logger (RuleFailure e at_) ;;; ret (fst done)
      | None => ret (fst done)
      end
  end.

Fixpoint forCaretRules (csStructureDefinition : StructureDefinition)
    (rules : list CaretValueRule) (codeSystem : CodeSystem) : M CodeSystem :=
  match rules with
  | [] => ret codeSystem
  | rule :: rest =>
      emit (ApplyRule (RCaretValue rule)) ;;;
      codeSystem' <- assign csStructureDefinition (caretPath rule) (value rule)
                       (caretSource rule) codeSystem ;;
      forCaretRules csStructureDefinition rest codeSystem'
  end.

(** [setCaretRules]; the rules are returned as [resolveSoftIndexing] left
    them, because they are the objects [fshDefinition.rules] holds. *)
Definition setCaretRules (codeSystem : CodeSystem)
    (csStructureDefinition : StructureDefinition) (rules : list CaretValueRule)
  : M (CodeSystem * list CaretValueRule) :=
  resolved <- call (resolveSoftIndexing rules) ;;
  emit (SoftIndexesResolved rules resolved) ;;;
  codeSystem' <- forCaretRules csStructureDefinition resolved codeSystem ;;
  ret (codeSystem', resolved).

(** [findConceptPath] *)
Definition findConceptPath (codeSystem : CodeSystem) (codePath : list string)
  : Exn + string :=
  match conceptIndices (orEmpty (csConcept codeSystem)) codePath with
  | Some indices =>
      inr (join "." (map (fun conceptIndex => "concept[" ++ showNat conceptIndex ++ "]")
                         indices))
  | None =>
      inl (CannotResolvePathError (join " " (map (fun c => "#" ++ c) codePath)))
  end.

(** The body of the loop of [setCodeCaretRules]. *)
Definition applyCodeCaretRule (csStructureDefinition : StructureDefinition)
    (rule : CodeCaretValueRule) (codeSystem : CodeSystem) : M CodeSystem :=
  emit (ApplyRule (RCodeCaretValue rule)) ;;;
  match findConceptPath codeSystem (codePath rule) with
  | inl e => logger (RuleFailure e (codeCaretSource rule)) ;;; ret codeSystem
  | inr conceptPath =>
      assign csStructureDefinition (conceptPath ++ "." ++ conceptCaretPath rule)
             (conceptValue rule) (codeCaretSource rule) codeSystem
  end.

(** [setCodeCaretRules] *)
Fixpoint setCodeCaretRules (codeSystem : CodeSystem)
    (csStructureDefinition : StructureDefinition) (rules : list CodeCaretValueRule)
  : M CodeSystem :=
  match rules with
  | [] => ret codeSystem
  | rule :: rest =>
      codeSystem' <- applyCodeCaretRule csStructureDefinition rule codeSystem ;;
      setCodeCaretRules codeSystem' csStructureDefinition rest
  end.

(** [countConcepts(codeSystem.concept) || undefined] *)
Definition actualCountOf (codeSystem : CodeSystem) : option nat :=
  let n := countConcepts (csConcept codeSystem) in
  if Nat.eqb n 0 then None else Some n.

(** [codeSystem.count !== actualCount] *)
Definition countDiffers (count : option Z) (actualCount : option nat) : bool :=
  match count, actualCount with
  | Some c, Some n => negb (c =? Z.of_nat n)%Z
  | None, None => false
  | _, _ => true
  end.

Definition isCountRule (r : Rule) : bool :=
  match r with
  | RCaretValue c => caretPath c =? "count"
  | _ => false
  end.

(** [countRule?.sourceInfo ?? fshDefinition.sourceInfo] *)
Definition countSource (fshDefinition : FshCodeSystem) : SourceInfo :=
  match List.find isCountRule (rules fshDefinition) with
  | Some (RCaretValue countRule) => caretSource countRule
  | _ => sourceInfo fshDefinition
  end.

(** [updateCount] *)
Definition updateCount (codeSystem : CodeSystem) (fshDefinition : FshCodeSystem)
  : M CodeSystem :=
  if sameOpt (csContent codeSystem) (Some "complete") then
    let actualCount := actualCountOf codeSystem in
    match csCount codeSystem, actualCount with
    | None, Some n => ret (withCount codeSystem (Some (Z.of_nat n)))
    | count, _ =>
        if countDiffers count actualCount then
          logger (CountMismatch count actualCount (countSource fshDefinition)) ;;;
          ret codeSystem
        else ret codeSystem
    end
  else ret codeSystem.

(** The three [filter ... instanceof] of [exportCodeSystem]. *)
Fixpoint caretValueRules (rs : list Rule) : list CaretValueRule :=
  match rs with
  | [] => []
  | RCaretValue r :: rest => r :: caretValueRules rest
  | _ :: rest => caretValueRules rest
  end.

Fixpoint conceptRules (rs : list Rule) : list ConceptRule :=
  match rs with
  | [] => []
  | RConcept r :: rest => r :: conceptRules rest
  | _ :: rest => conceptRules rest
  end.

Fixpoint codeCaretValueRules (rs : list Rule) : list CodeCaretValueRule :=
  match rs with
  | [] => []
  | RCodeCaretValue r :: rest => r :: codeCaretValueRules rest
  | _ :: rest => codeCaretValueRules rest
  end.

(** The caret rules of [fshDefinition.rules] are the very objects that
    [resolveSoftIndexing] rewrote: the rule list sees them rewritten. *)
Fixpoint rewritten (rs : list Rule) (resolved : list CaretValueRule) : list Rule :=
  match rs with
  | [] => []
  | RCaretValue r :: rest =>
      match resolved with
      | r' :: resolved' => RCaretValue r' :: rewritten rest resolved'
      | [] => RCaretValue r :: rewritten rest []
      end
  | other :: rest => other :: rewritten rest resolved
  end.

Definition withRules (fshDefinition : FshCodeSystem) (rs : list Rule) : FshCodeSystem :=
  mkFshCodeSystem (name fshDefinition) (id fshDefinition) (title fshDefinition)
    (description fshDefinition) rs (sourceInfo fshDefinition).

(** [exportCodeSystem]; a bare [return] is [None]. *)
Definition exportCodeSystem (fshDefinition : FshCodeSystem) : M (option CodeSystem) :=
  exported <- getCodeSystems ;;
  if existsb (fun cs => sameOpt (csName cs) (Some (name fshDefinition))) exported
  then ret None
  else
    emit (Reached Init) ;;;
    codeSystem <- setMetadata emptyCodeSystem fshDefinition ;;
    emit (Reached MetadataSet) ;;;
    expanded <- call (applyInsertRules fshDefinition tank) ;;
    let fshDefinition := withRules fshDefinition expanded in
    csStructureDefinition <- callOrThrow fishStructureDefinition ;;
    done <- setCaretRules codeSystem csStructureDefinition
              (caretValueRules (rules fshDefinition)) ;;
    let codeSystem := fst done in
    let fshDefinition :=
      withRules fshDefinition (rewritten (rules fshDefinition) (snd done)) in
    emit (Reached CaretRulesApplied) ;;;
    codeSystem <- setConcepts codeSystem (conceptRules (rules fshDefinition)) ;;
    emit (Reached ConceptsBuilt) ;;;
    codeSystem <- setCodeCaretRules codeSystem csStructureDefinition
                    (codeCaretValueRules (rules fshDefinition)) ;;
    emit (Reached ConceptCaretRulesApplied) ;;;
    exported <- getCodeSystems ;;
    (if existsb (fun cs => sameOpt (csId codeSystem) (csId cs)) exported
     then logger (DuplicateId (csId codeSystem) (sourceInfo fshDefinition))
     else ret tt) ;;;
    codeSystem <- updateCount codeSystem fshDefinition ;;
    emit (Reached CountReconciled) ;;;
    push codeSystem ;;;
    emit (Reached Exported) ;;;
    ret (Some codeSystem).

(** The loop of [export]. *)
Fixpoint exportEach (entities : list FshCodeSystem) : M unit :=
  match entities with
  | [] => ret tt
  | cs :: rest =>
      tryCatch (exportCodeSystem cs ;;; ret tt)
               (fun e => logger (EntityFailure e (sourceInfo cs))) ;;;
      exportEach rest
  end.

(** [export]: returns the package. *)
Definition export : M (list CodeSystem) :=
  let entities := getAllCodeSystems tank in
  exportEach entities ;;;
  (if Nat.ltb 0 (List.length entities)
   then logger (Converted (List.length entities))
   else ret tt) ;;;
  getCodeSystems.

(** ** The text of the diagnostics *)

Definition message (e : Exn) : string :=
  match e with
  | CannotResolvePathError path => cannotResolvePathMessage path
  | Failure text => text
  end.

(** The arguments the logger receives for each diagnostic. *)
Definition rendered (d : Diagnostic) : Level * string * option SourceInfo :=
  match d with
  | MissingAncestor ancestorCode conceptCode at_ =>
      (LError,
       "Could not find " ++ ancestorCode
         ++ " in concept hierarchy to use as ancestor of " ++ conceptCode ++ ".",
       Some at_)
  | RuleFailure e at_ => (LError, message e, Some at_)
  | DuplicateId id_ at_ =>
      (LError,
       "Multiple code systems with id " ++ showOpt id_
         ++ ". Each code system must have a unique id.",
       Some at_)
  | CountMismatch count actualCount at_ =>
      (LWarn,
       "The user-specified ^count ("
         ++ match count with Some c => showZ c | None => "undefined" end
         ++ ") does not match the specified number of concepts ("
         ++ showNat match actualCount with Some n => n | None => 0 end
         ++ "). If this is not a " ++ quoted "complete"
         ++ " CodeSystem, set the ^content property to the appropriate "
         ++ "value; otherwise fix or remove the ^count.",
       Some at_)
  | EntityFailure e at_ => (LError, message e, Some at_)
  | Converted n =>
      (LInfo, "Converted " ++ showNat n ++ " FHIR CodeSystems.", None)
  | Reported level text at_ => (level, text, Some at_)
  end.

End Exporter.

(** ** The Extension entity (src/fshtypes/Extension.ts) *)

Module Extension.
Section Entity.

(** [SdRule] *)
Variable SdRule : Type.

(** The fields the class declares; [name] is the constructor's parameter
    property. *)
Record t := mk {
  name : string;
  id : string;
  parent : string;
  title : option string;
  description : option string;
  mixins : option (list string);
  rules : list SdRule
}.

(** [new Extension(name)] *)
Definition constructor (name : string) : t :=
  {| name := name;
     id := name;
     parent := "Extension";
     title := None;
     description := None;
     mixins := Some [];
     rules := [] |}.

(** [get constructorName()] *)
Definition constructorName (e : t) : string := "Extension".

(** The fields are public and writable: an assignment names one field. *)
Inductive Field := FName | FId | FParent | FTitle | FDescription | FMixins | FRules.

Inductive Assignment :=
| SetName (v : string)
| SetId (v : string)
| SetParent (v : string)
| SetTitle (v : option string)
| SetDescription (v : option string)
| SetMixins (v : option (list string))
| SetRules (v : list SdRule).

Definition target (a : Assignment) : Field :=
  match a with
  | SetName _ => FName
  | SetId _ => FId
  | SetParent _ => FParent
  | SetTitle _ => FTitle
  | SetDescription _ => FDescription
  | SetMixins _ => FMixins
  | SetRules _ => FRules
  end.

Definition assignTo (e : t) (a : Assignment) : t :=
  match a with
  | SetName v => mk v (id e) (parent e) (title e) (description e) (mixins e) (rules e)
  | SetId v => mk (name e) v (parent e) (title e) (description e) (mixins e) (rules e)
  | SetParent v => mk (name e) (id e) v (title e) (description e) (mixins e) (rules e)
  | SetTitle v => mk (name e) (id e) (parent e) v (description e) (mixins e) (rules e)
  | SetDescription v => mk (name e) (id e) (parent e) (title e) v (mixins e) (rules e)
  | SetMixins v => mk (name e) (id e) (parent e) (title e) (description e) v (rules e)
  | SetRules v => mk (name e) (id e) (parent e) (title e) (description e) (mixins e) v
  end.

Definition assignAll (e : t) (writes : list Assignment) : t :=
  fold_left assignTo writes e.

End Entity.
End Extension.

(** ** Views of the concept forest used to state the properties *)

(** What a rule gives a concept: code, display and definition. *)
Definition label (c : CodeSystemConcept) : string * option string * option string :=
  (code c, display c, definition c).

(** The children found by following positions from the root of the forest;
    a node without a [concept] array has no children. *)
Fixpoint levelAt (position : list nat) (forest : list CodeSystemConcept)
  : list CodeSystemConcept :=
  match position with
  | [] => forest
  | i :: below =>
      match nth_error forest i with
      | Some c => levelAt below (orEmpty (concept c))
      | None => []
      end
  end.

(** The forest with every absent [concept] array read as an empty one. *)
Fixpoint settled (c : CodeSystemConcept) : CodeSystemConcept :=
  match c with
  | mkConcept code_ display_ definition_ children =>
      mkConcept code_ display_ definition_
        (Some match children with
              | Some l => map settled l
              | None => []
              end)
  end.

(** All the concepts of a forest, parents before their children. *)
Fixpoint conceptsUnder (c : CodeSystemConcept) : list CodeSystemConcept :=
  match c with
  | mkConcept _ _ _ (Some l) => flat_map (fun k => k :: conceptsUnder k) l
  | mkConcept _ _ _ None => []
  end.

Definition allConcepts (forest : list CodeSystemConcept) : list CodeSystemConcept :=
  flat_map (fun k => k :: conceptsUnder k) forest.

(** The forest after one concept rule, and after a list of them. *)
Definition forestAfterRule (r : ConceptRule) (forest : list CodeSystemConcept)
  : list CodeSystemConcept :=
  fst (walkAndPush (hierarchy r) (newConcept r) forest).

Definition forestAfter (rs : list ConceptRule) (forest : list CodeSystemConcept)
  : list CodeSystemConcept :=
  fold_left (fun f r => forestAfterRule r f) rs forest.

(** Where the ancestor codes of a rule lead in a forest, if they all are
    found: the positions of the ancestors from the root. *)
Definition located (r : ConceptRule) (forest : list CodeSystemConcept)
  : option (list nat) :=
  conceptIndices forest (hierarchy r).

(** The rules whose ancestors are all found when their turn comes. *)
Fixpoint satisfiedRules (rs : list ConceptRule) (forest : list CodeSystemConcept)
  : list ConceptRule :=
  match rs with
  | [] => []
  | r :: rest =>
      match located r forest with
      | Some _ => r :: satisfiedRules rest (forestAfterRule r forest)
      | None => satisfiedRules rest (forestAfterRule r forest)
      end
  end.

(** Every rule finds all its ancestors when its turn comes. *)
Fixpoint allSatisfied (rs : list ConceptRule) (forest : list CodeSystemConcept)
  : bool :=
  match rs with
  | [] => true
  | r :: rest =>
      match located r forest with
      | Some _ => allSatisfied rest (forestAfterRule r forest)
      | None => false
      end
  end.

(** Among them, in source order, those that are led to [position]. *)
Fixpoint insertedAt (position : list nat) (rs : list ConceptRule)
    (forest : list CodeSystemConcept) : list ConceptRule :=
  match rs with
  | [] => []
  | r :: rest =>
      match located r forest with
      | Some p =>
          if list_eq_dec Nat.eq_dec p position
          then r :: insertedAt position rest (forestAfterRule r forest)
          else insertedAt position rest (forestAfterRule r forest)
      | None => insertedAt position rest (forestAfterRule r forest)
      end
  end.

(** ** The export state machine

    [Init -> MetadataSet -> CaretRulesApplied -> ConceptsBuilt ->
     ConceptCaretRulesApplied -> CountReconciled -> Exported], written as an
    acceptor of traces: a step is reached only from the step before it, and
    every other event is allowed in one step only. *)

Section Machine.
Context {D : Domain}.

(** Where an export stands: not started, or at a step. *)
Inductive Stage :=
| Idle
| At (p : Phase).

Definition follows (s : Stage) : option Phase :=
  match s with
  | Idle => Some Init
  | At Init => Some MetadataSet
  | At MetadataSet => Some CaretRulesApplied
  | At CaretRulesApplied => Some ConceptsBuilt
  | At ConceptsBuilt => Some ConceptCaretRulesApplied
  | At ConceptCaretRulesApplied => Some CountReconciled
  | At CountReconciled => Some Exported
  | At Exported => None
  end.

Definition samePhase (p q : Phase) : bool :=
  match p, q with
  | Init, Init
  | MetadataSet, MetadataSet
  | CaretRulesApplied, CaretRulesApplied
  | ConceptsBuilt, ConceptsBuilt
  | ConceptCaretRulesApplied, ConceptCaretRulesApplied
  | CountReconciled, CountReconciled
  | Exported, Exported => true
  | _, _ => false
  end.

Definition transition (s : Stage) (ev : Event) : option Stage :=
  match ev with
  | Reached p =>
      match follows s with
      | Some q => if samePhase p q then Some (At p) else None
      | None => None
      end
  | SoftIndexesResolved _ _ =>
      match s with
      | At MetadataSet => Some s
      | _ => None
      end
  | ApplyRule (RCaretValue _) =>
      match s with
      | At MetadataSet => Some s
      | _ => None
      end
  | ApplyRule (RConcept _) =>
      match s with
      | At CaretRulesApplied => Some s
      | _ => None
      end
  | ApplyRule (RCodeCaretValue _) =>
      match s with
      | At ConceptsBuilt => Some s
      | _ => None
      end
  | ApplyRule (RInsert _) => None
  | CallValidateValueAtPath _ _ =>
      match s with
      | At MetadataSet | At ConceptsBuilt => Some s
      | _ => None
      end
  end.

Fixpoint runMachine (s : Stage) (events : list Event) : option Stage :=
  match events with
  | [] => Some s
  | ev :: rest =>
      match transition s ev with
      | Some s' => runMachine s' rest
      | None => None
      end
  end.

(** The three kinds of rule in the order the exporter handles them. *)
Definition rank (r : Rule) : nat :=
  match r with
  | RCaretValue _ => 0
  | RConcept _ => 1
  | RCodeCaretValue _ => 2
  | RInsert _ => 3
  end.

(** The events of the loop of [setCaretRules] over the rules it applies. *)
Definition caretEvents (resolved : list CaretValueRule) : list Event :=
  flat_map (fun r => [ApplyRule (RCaretValue r);
                      CallValidateValueAtPath (caretPath r) (value r)])
           resolved.

(** The events the loop of [setCodeCaretRules] may leave: a rule whose
    concept path is not found validates nothing, the others validate the
    caret path under the path of the concept. *)
Inductive CodeCaretEvents : list CodeCaretValueRule -> list Event -> Prop :=
| cce_done : CodeCaretEvents [] []
| cce_skipped r rest events :
    CodeCaretEvents rest events ->
    CodeCaretEvents (r :: rest) (ApplyRule (RCodeCaretValue r) :: events)
| cce_validated r rest events conceptPath :
    CodeCaretEvents rest events ->
    CodeCaretEvents (r :: rest)
      (ApplyRule (RCodeCaretValue r)
       :: CallValidateValueAtPath (conceptPath ++ "." ++ conceptCaretPath r)
                                  (conceptValue r)
       :: events).

(** What the loop of [setConcepts] logs, started on [forest]. *)
Fixpoint conceptDiagnostics (rs : list ConceptRule) (forest : list CodeSystemConcept)
  : list Diagnostic :=
  match rs with
  | [] => []
  | r :: rest =>
      match snd (walkAndPush (hierarchy r) (newConcept r) forest) with
      | Some ancestorCode =>
          MissingAncestor ancestorCode (ruleCode r) (conceptSource r)
          :: conceptDiagnostics rest (forestAfterRule r forest)
      | None => conceptDiagnostics rest (forestAfterRule r forest)
      end
  end.

(** The events of one export that reaches its end. *)
Definition exportEvents (given resolved : list CaretValueRule)
    (concepts : list ConceptRule) (codeCaret : list Event) : list Event :=
  ([Reached Init; Reached MetadataSet; SoftIndexesResolved given resolved]
   ++ caretEvents resolved
   ++ [Reached CaretRulesApplied]
   ++ map (fun r => ApplyRule (RConcept r)) concepts
   ++ [Reached ConceptsBuilt]
   ++ codeCaret
   ++ [Reached ConceptCaretRulesApplied; Reached CountReconciled; Reached Exported])%list.

Definition isValidation (ev : Event) : bool :=
  match ev with
  | CallValidateValueAtPath _ _ => true
  | _ => false
  end.

Definition isResolution (ev : Event) : bool :=
  match ev with
  | SoftIndexesResolved _ _ => true
  | _ => false
  end.

(** The positions the codes of a path stand at: each code is the code of
    the first concept that has it at its level, and the next code is looked
    for among the children of that concept. *)
Inductive Leads : list CodeSystemConcept -> list string -> list nat -> Prop :=
| leads_here forest : Leads forest [] []
| leads_down forest step rest i positions k :
    nth_error forest i = Some k ->
    code k = step ->
    (forall j k', j < i -> nth_error forest j = Some k' -> code k' <> step) ->
    Leads (orEmpty (concept k)) rest positions ->
    Leads forest (step :: rest) (i :: positions).

(** The caret paths of the rules that carry one, in source order. *)
Definition caretPaths (rs : list Rule) : list string :=
  flat_map (fun r =>
              match r with
              | RCaretValue c => [caretPath c]
              | RCodeCaretValue c => [conceptCaretPath c]
              | _ => []
              end)
           rs.

Definition rootCaretPaths (rs : list Rule) : list string :=
  map caretPath (caretValueRules rs).

(** Soft indexes are resolved in one pass, on rules whose caret paths are
    [covered], before any path is validated. *)
Definition singlePrePass (covered : list string) (events : list Event) : Prop :=
  exists before given resolved after,
    events = (before ++ SoftIndexesResolved given resolved :: after)%list
    /\ map caretPath given = covered
    /\ filter isValidation before = []
    /\ filter isResolution before = []
    /\ filter isResolution after = [].

(** The rules whose loop body starts in a trace, in order. *)
Definition applied (events : list Event) : list Rule :=
  flat_map (fun ev =>
              match ev with
              | ApplyRule r => [r]
              | _ => []
              end)
           events.

(** How far a stage is in the export. *)
Definition progress (s : Stage) : nat :=
  match s with
  | Idle => 0
  | At Init => 1
  | At MetadataSet => 2
  | At CaretRulesApplied => 3
  | At ConceptsBuilt => 4
  | At ConceptCaretRulesApplied => 5
  | At CountReconciled => 6
  | At Exported => 7
  end.

Definition isDuplicateId (d : Diagnostic) : bool :=
  match d with
  | DuplicateId _ _ => true
  | _ => false
  end.

Definition isCountMismatch (d : Diagnostic) : bool :=
  match d with
  | CountMismatch _ _ _ => true
  | _ => false
  end.


(** The same, and logged at [at_]. *)
Definition reportedAt (at_ : SourceInfo) (d : Diagnostic) : Prop :=
  exists level text, d = Reported level text at_.



End Machine.

(** ** What an export that returns a document leaves behind *)

Section Reports.
Context {D : Domain} {C : Collaborators}.
Variable tank : FSHTank.

(** From [st], the export of [fshDefinition] appended [d] to the package and
    ended in [st']: the rules are the entity's after [applyInsertRules], the
    caret rules applied are those [resolveSoftIndexing] left, and the logger
    received, in this order, what [setName] and [setId] reported at the
    location of the entity, the failures of caret rules, the missing
    ancestors, the failures of code caret rules, the duplicate id if there
    is one, and the count mismatch if there is one. *)
Definition ExportedAs (fshDefinition : FshCodeSystem) (st : State)
    (d : CodeSystem) (st' : State) : Prop :=
  exists expanded resolved reported caretDiags codeCaretDiags codeCaret countDiags,
    (exists w, expanded = fst (applyInsertRules fshDefinition tank w))
    /\ (exists w, resolved = fst (resolveSoftIndexing (caretValueRules expanded) w))
    /\ codeSystems st' = (codeSystems st ++ [d])%list
    /\ log st'
       = (log st
          ++ reported
          ++ caretDiags
          ++ conceptDiagnostics (conceptRules expanded) []
          ++ codeCaretDiags
          ++ (if existsb (fun cs => sameOpt (csId d) (csId cs)) (codeSystems st)
              then [DuplicateId (csId d) (sourceInfo fshDefinition)]
              else [])
          ++ countDiags)%list
    /\ trace st'
       = (trace st
          ++ exportEvents (caretValueRules expanded) resolved
               (conceptRules expanded) codeCaret)%list
    /\ Forall (fun x => exists e r, In r resolved /\ x = RuleFailure e (caretSource r))
              caretDiags
    /\ Forall (fun x => exists e r,
                   In r (codeCaretValueRules expanded)
                   /\ x = RuleFailure e (codeCaretSource r))
              codeCaretDiags
    /\ CodeCaretEvents (codeCaretValueRules expanded) codeCaret
    /\ (countDiags = []
        \/ exists count actualCount at_,
             countDiags = [CountMismatch count actualCount at_])
    /\ Forall (reportedAt (sourceInfo fshDefinition)) reported.

(** For an export of [fshDefinition] that starts in the world [w] and is not
    skipped: what [setName] gives, what [setId] then gives, what the two have
    logged, and the world in which the CodeSystem definition is looked up,
    which is the one [applyInsertRules] leaves. *)
Definition namedFrom (fshDefinition : FshCodeSystem) (w : World)
  : CodeSystem * list (Level * string) * World :=
  setName (name fshDefinition) (sourceInfo fshDefinition) emptyCodeSystem w.

Definition identifiedFrom (fshDefinition : FshCodeSystem) (w : World)
  : CodeSystem * list (Level * string) * World :=
  setId (id fshDefinition) (sourceInfo fshDefinition)
        (fst (fst (namedFrom fshDefinition w))) (snd (namedFrom fshDefinition w)).

Definition metadataReports (fshDefinition : FshCodeSystem) (w : World)
  : list Diagnostic :=
  map (fun m => Reported (fst m) (snd m) (sourceInfo fshDefinition))
      (snd (fst (namedFrom fshDefinition w))
       ++ snd (fst (identifiedFrom fshDefinition w)))%list.

Definition worldAtLookup (fshDefinition : FshCodeSystem) (w : World) : World :=
  snd (applyInsertRules fshDefinition tank (snd (identifiedFrom fshDefinition w))).

End Reports.

(** ** More views of the forest, the paths and the logger *)

(** The concept that stands at a position of the forest. *)
Fixpoint nodeAt (position : list nat) (forest : list CodeSystemConcept)
  : option CodeSystemConcept :=
  match position with
  | [] => None
  | i :: below =>
      match nth_error forest i with
      | Some c =>
          match below with
          | [] => Some c
          | _ :: _ => nodeAt below (orEmpty (concept c))
          end
      | None => None
      end
  end.

(** The document path [findConceptPath] writes for a list of positions. *)
Definition dotted (positions : list nat) : string :=
  join "." (map (fun conceptIndex => "concept[" ++ showNat conceptIndex ++ "]")
                positions).

(** The string has no closing bracket. *)
Fixpoint bracketFree (s : string) : bool :=
  match s with
  | EmptyString => true
  | String c rest => negb (Ascii.eqb c "]") && bracketFree rest
  end.

Section MoreViews.
Context {D : Domain}.

Definition isConverted (d : Diagnostic) : bool :=
  match d with
  | Converted _ => true
  | _ => false
  end.

Definition isMissingAncestor (d : Diagnostic) : bool :=
  match d with
  | MissingAncestor _ _ _ => true
  | _ => false
  end.

End MoreViews.

(** ** A plain instance of the collaborators

    Small stand-ins on which the exporter runs: values are texts or numbers,
    every property that is not one of the named ones is kept in a list, a
    path is refused when it is empty or ends with a dot, [count] takes a
    number only, soft
    indexing has nothing to rewrite, the fisher answers the lookups of the
    CodeSystem definition from a list of prepared answers, [setId] takes no
    underscore in an id: it writes a dash for it and logs a warning, and
    [setPropertyOnInstance] throws on a negative number. *)

Inductive PlainValue :=
| Text (s : string)
| Number (z : Z).

#[export] Instance plainDomain : Domain := {|
  World := list bool;
  Value := PlainValue;
  StructureDefinition := unit;
  Resolved := string * PlainValue;
  Other := list (string * PlainValue)
|}.

Definition plainSetProperty (cs : CodeSystem) (resolved : string * PlainValue)
  : CodeSystem :=
  let (path, v) := resolved in
  match v with
  | Text s =>
      if path =? "name" then
        mkCodeSystem (Some s) (csId cs) (csTitle cs) (csDescription cs) (csVersion cs)
          (csUrl cs) (csContent cs) (csCount cs) (csConcept cs) (csOther cs)
      else if path =? "id" then
        mkCodeSystem (csName cs) (Some s) (csTitle cs) (csDescription cs) (csVersion cs)
          (csUrl cs) (csContent cs) (csCount cs) (csConcept cs) (csOther cs)
      else if path =? "content" then
        mkCodeSystem (csName cs) (csId cs) (csTitle cs) (csDescription cs) (csVersion cs)
          (csUrl cs) (Some s) (csCount cs) (csConcept cs) (csOther cs)
      else
        mkCodeSystem (csName cs) (csId cs) (csTitle cs) (csDescription cs) (csVersion cs)
          (csUrl cs) (csContent cs) (csCount cs) (csConcept cs)
          (csOther cs ++ [(path, v)])%list
  | Number z =>
      if path =? "count" then
        mkCodeSystem (csName cs) (csId cs) (csTitle cs) (csDescription cs) (csVersion cs)
          (csUrl cs) (csContent cs) (Some z) (csConcept cs) (csOther cs)
      else
        mkCodeSystem (csName cs) (csId cs) (csTitle cs) (csDescription cs) (csVersion cs)
          (csUrl cs) (csContent cs) (csCount cs) (csConcept cs)
          (csOther cs ++ [(path, v)])%list
  end.

Definition plainAssign (cs : CodeSystem) (resolved : string * PlainValue)
  : CodeSystem * option Exn :=
  match resolved with
  | (path, Number z) =>
      if (z <? 0)%Z
      then (cs, Some (Failure "no negative number is taken"))
      else (plainSetProperty cs resolved, None)
  | _ => (plainSetProperty cs resolved, None)
  end.

Fixpoint endsWithDot (s : string) : bool :=
  match s with
  | EmptyString => false
  | String c EmptyString => Ascii.eqb c "."
  | String _ rest => endsWithDot rest
  end.

Definition plainValidate (path : string) (v : PlainValue)
  : Exn + string * PlainValue :=
  if (path =? EmptyString) || endsWithDot path then inl (CannotResolvePathError path)
  else if path =? "count" then
    match v with
    | Number _ => inr (path, v)
    | Text _ => inl (Failure "count takes a number")
    end
  else inr (path, v).

Definition plainFish (answers : list bool) : (Exn + unit) * list bool :=
  match answers with
  | false :: later => (inl (Failure "no definition of CodeSystem"), later)
  | true :: later => (inr tt, later)
  | [] => (inr tt, [])
  end.

Fixpoint dashed (s : string) : string :=
  match s with
  | EmptyString => EmptyString
  | String c rest => String (if Ascii.eqb c "_" then "-"%char else c) (dashed rest)
  end.

Definition plainSetId (i : string) (cs : CodeSystem)
  : CodeSystem * list (Level * string) :=
  (mkCodeSystem (csName cs) (Some (dashed i)) (csTitle cs) (csDescription cs)
     (csVersion cs) (csUrl cs) (csContent cs) (csCount cs) (csConcept cs) (csOther cs),
   if dashed i =? i then []
   else [(LWarn, "The id " ++ i ++ " has an underscore; " ++ dashed i ++ " is used.")]).

#[export] Instance plainCollaborators : Collaborators := {|
  emptyCodeSystem := mkCodeSystem None None None None None None None None None [];
  setName := fun n _ cs w =>
    (mkCodeSystem (Some n) (csId cs) (csTitle cs) (csDescription cs) (csVersion cs)
       (csUrl cs) (csContent cs) (csCount cs) (csConcept cs) (csOther cs), [], w);
  setId := fun i _ cs w => (plainSetId i cs, w);
  applyInsertRules := fun fshDefinition _ w => (rules fshDefinition, w);
  fishStructureDefinition := plainFish;
  resolveSoftIndexing := fun rs w => (rs, w);
  validateValueAtPath := fun _ path v w => (plainValidate path v, w);
  setPropertyOnInstance := fun cs resolved w => (plainAssign cs resolved, w);
  cannotResolvePathMessage := fun path => "Cannot resolve path " ++ path
|}.

(** Entities and states to run the exporter on. *)

Definition here (n : nat) : SourceInfo := mkSourceInfo "zoo.fsh" n 1.

Definition bear : ConceptRule := mkConceptRule "bear" (Some "Bear") None [] (here 3).
Definition cub : ConceptRule := mkConceptRule "cub" None None ["bear"] (here 4).
Definition zebra : ConceptRule := mkConceptRule "zebra" None None [] (here 5).
Definition foal : ConceptRule := mkConceptRule "foal" None None ["horse"] (here 6).

Definition complete : CaretValueRule :=
  mkCaretValueRule "content" (Text "complete") (here 2).
Definition five : CaretValueRule := mkCaretValueRule "count" (Number 5) (here 7).
Definition wrongCount : CaretValueRule := mkCaretValueRule "count" (Text "five") (here 7).

Definition cubDesignation : CodeCaretValueRule :=
  mkCodeCaretValueRule ["bear"; "cub"] "designation[+].value" (Text "ourson") (here 8).
Definition foalDesignation : CodeCaretValueRule :=
  mkCodeCaretValueRule ["zebra"; "foal"] "designation[0].value" (Text "poulain") (here 9).

Definition zoo : FshCodeSystem :=
  mkFshCodeSystem "Zoo" "zoo" (Some "Zoo animals") None
    [RCaretValue complete; RConcept bear; RConcept cub; RConcept zebra]
    (here 1).

Definition countedZoo : FshCodeSystem :=
  mkFshCodeSystem "CountedZoo" "counted-zoo" None None
    [RCaretValue complete; RConcept bear; RConcept cub; RConcept zebra;
     RCaretValue five]
    (here 1).

Definition zooAgain : FshCodeSystem :=
  mkFshCodeSystem "Zoo" "zoo-again" None None [RConcept zebra] (here 20).

Definition otherZoo : FshCodeSystem :=
  mkFshCodeSystem "OtherZoo" "zoo" None None [RConcept zebra] (here 30).

Definition annotatedZoo : FshCodeSystem :=
  mkFshCodeSystem "AnnotatedZoo" "annotated-zoo" None None
    [RCodeCaretValue cubDesignation; RConcept bear; RCaretValue wrongCount;
     RConcept cub; RCodeCaretValue foalDesignation; RCaretValue complete]
    (here 1).

Definition plainTank : FSHTank :=
  mkFSHTank (mkConfiguration (Some "1.0.0") "http://example.org")
            [zoo; zooAgain; otherZoo].

Definition startWith (answers : list bool) : State := mkState answers [] [] [].

(** What the plain fisher returns for the CodeSystem definition. *)
Definition plainDefinition : @StructureDefinition plainDomain := tt.

(** The document and the state the export of [zoo] gives from the start. *)
Definition zooDocument : CodeSystem :=
  Eval vm_compute in
    match fst (exportCodeSystem plainTank zoo (startWith [])) with
    | Returned (Some d) => d
    | _ => emptyCodeSystem
    end.

Definition zooState : State :=
  Eval vm_compute in snd (exportCodeSystem plainTank zoo (startWith [])).

(** The same for [otherZoo], exported after [zoo]. *)
Definition otherZooDocument : CodeSystem :=
  Eval vm_compute in
    match fst (exportCodeSystem plainTank otherZoo zooState) with
    | Returned (Some d) => d
    | _ => emptyCodeSystem
    end.

Definition otherZooState : State :=
  Eval vm_compute in snd (exportCodeSystem plainTank otherZoo zooState).

(** The document of [zoo] with another content and count. *)
Definition zooWith (content : string) (count : option Z) : CodeSystem :=
  mkCodeSystem (csName zooDocument) (csId zooDocument) (csTitle zooDocument)
    (csDescription zooDocument) (csVersion zooDocument) (csUrl zooDocument)
    (Some content) count (csConcept zooDocument) (csOther zooDocument).

(** More entities and documents for the further properties. *)

Definition strayFoal : ConceptRule :=
  mkConceptRule "foal" None None ["bear"; "horse"] (here 10).

Definition rootStatus : CodeCaretValueRule :=
  mkCodeCaretValueRule [] "status" (Text "draft") (here 11).

Definition emptyTank : FSHTank :=
  mkFSHTank (mkConfiguration (Some "1.0.0") "http://example.org") [].

Definition nothingCounted : CodeSystem :=
  mkCodeSystem (Some "Nothing") (Some "nothing") None None None None
    (Some "complete") (Some 0%Z) None [].

(** An entity named like [zooAgain] whose document a caret rule renames. *)
Definition renamed : CaretValueRule :=
  mkCaretValueRule "name" (Text "Renamed") (here 41).

Definition renamedZoo : FshCodeSystem :=
  mkFshCodeSystem "Zoo" "renamed-zoo" None None [RCaretValue renamed; RConcept bear]
    (here 40).

Definition renamedZooDocument : CodeSystem :=
  Eval vm_compute in
    match fst (exportCodeSystem plainTank renamedZoo (startWith [])) with
    | Returned (Some d) => d
    | _ => emptyCodeSystem
    end.

Definition renamedZooState : State :=
  Eval vm_compute in snd (exportCodeSystem plainTank renamedZoo (startWith [])).

Definition zooAgainDocument : CodeSystem :=
  Eval vm_compute in
    match fst (exportCodeSystem plainTank zooAgain renamedZooState) with
    | Returned (Some d) => d
    | _ => emptyCodeSystem
    end.

(** An entity with the id of [zoo] whose document a caret rule gives
    another id. *)
Definition moved : CaretValueRule := mkCaretValueRule "id" (Text "moved") (here 51).

Definition movedZoo : FshCodeSystem :=
  mkFshCodeSystem "MovedZoo" "zoo" None None [RCaretValue moved] (here 50).

Definition movedZooDocument : CodeSystem :=
  Eval vm_compute in
    match fst (exportCodeSystem plainTank movedZoo zooState) with
    | Returned (Some d) => d
    | _ => emptyCodeSystem
    end.

Definition movedZooState : State :=
  Eval vm_compute in snd (exportCodeSystem plainTank movedZoo zooState).






(** * Properties *)

(** ** Arrays *)

Lemma findFrom_some {A : Type} (p : A -> bool) (l : list A) :
  forall k i x,
    findFrom p l k = Some (i, x) ->
    k <= i /\ nth_error l (i - k) = Some x /\ p x = true
    /\ forall j y, j < i - k -> nth_error l j = Some y -> p y = false.
Proof.
  induction l as [|a l IH]; simpl; intros k i x H.
  - discriminate.
  - destruct (p a) eqn:Hp.
    + inversion H; subst. rewrite Nat.sub_diag. simpl.
      repeat split; auto. intros j y Hj. lia.
    + apply IH in H. destruct H as (Hle & Hnth & Hx & Hfirst).
      replace (i - k) with (S (i - S k)) by lia. simpl.
      repeat split; auto; try lia.
      intros [|j] y Hj Hy; simpl in Hy.
      * inversion Hy; subst; assumption.
      * apply (Hfirst j); auto. lia.
Qed.

Lemma find_some {A : Type} (p : A -> bool) (l : list A) i x :
  find p l = Some (i, x) ->
  nth_error l i = Some x /\ p x = true
  /\ forall j y, j < i -> nth_error l j = Some y -> p y = false.
Proof.
  unfold find. intros H. apply findFrom_some in H.
  rewrite Nat.sub_0_r in H. tauto.
Qed.

Lemma findFrom_none {A : Type} (p : A -> bool) (l : list A) :
  forall k, findFrom p l k = None <-> forall x, In x l -> p x = false.
Proof.
  induction l as [|a l IH]; simpl; intros k.
  - split; auto. intros _ x [].
  - destruct (p a) eqn:Hp.
    + split; [discriminate|]. intros H. rewrite (H a) in Hp; auto. discriminate.
    + rewrite IH. split.
      * intros H x [->|Hin]; auto.
      * intros H x Hin. apply H. auto.
Qed.

Lemma find_none {A : Type} (p : A -> bool) (l : list A) :
  find p l = None <-> forall x, In x l -> p x = false.
Proof. apply findFrom_none. Qed.

Lemma nth_error_setAt_same {A : Type} (l : list A) :
  forall i x y, nth_error l i = Some y -> nth_error (setAt i x l) i = Some x.
Proof.
  induction l as [|a l IH]; intros [|i] x y H; simpl in *; try discriminate; auto.
  eapply IH; eauto.
Qed.

Lemma nth_error_setAt_other {A : Type} (l : list A) :
  forall i j x, i <> j -> nth_error (setAt i x l) j = nth_error l j.
Proof.
  induction l as [|a l IH]; intros [|i] [|j] x H; simpl; auto; try congruence.
Qed.

Lemma map_setAt {A B : Type} (f : A -> B) (l : list A) :
  forall i x y, nth_error l i = Some y -> f x = f y ->
                map f (setAt i x l) = map f l.
Proof.
  induction l as [|a l IH]; intros [|i] x y H E; simpl in *; try discriminate; auto.
  - inversion H; subst. now rewrite E.
  - f_equal. eapply IH; eauto.
Qed.

Lemma length_setAt {A : Type} (l : list A) :
  forall i x, List.length (setAt i x l) = List.length l.
Proof.
  induction l as [|a l IH]; intros [|i] x; simpl; auto.
Qed.

Lemma sum_setAt {A : Type} (f : A -> nat) (l : list A) :
  forall i x y, nth_error l i = Some y ->
                list_sum (map f (setAt i x l)) + f y = list_sum (map f l) + f x.
Proof.
  induction l as [|a l IH]; intros [|i] x y H; simpl in *; try discriminate.
  - inversion H; subst. lia.
  - specialize (IH i x y H). lia.
Qed.

Lemma fold_sum (l : list nat) :
  forall a, fold_left (fun sum next => sum + next) l a = a + list_sum l.
Proof.
  induction l as [|n l IH]; simpl; intros a; [lia|]. rewrite IH. lia.
Qed.

(** ** Counting *)

Lemma countConcepts_sum (l : list CodeSystemConcept) :
  countConcepts (Some l) = List.length l + list_sum (map countBelow l).
Proof. simpl. now rewrite fold_sum. Qed.

Lemma countBelow_concept (c : CodeSystemConcept) :
  countBelow c = countConcepts (concept c).
Proof. destruct c as [co di de [l|]]; reflexivity. Qed.

Lemma countConcepts_orEmpty (o : option (list CodeSystemConcept)) :
  countConcepts (Some (orEmpty o)) = countConcepts o.
Proof. destruct o; reflexivity. Qed.

(** Induction on a concept with the hypothesis for all its children. *)
Lemma concept_induction (P : CodeSystemConcept -> Prop) :
  (forall co di de, P (mkConcept co di de None)) ->
  (forall co di de l, Forall P l -> P (mkConcept co di de (Some l))) ->
  forall c, P c.
Proof.
  intros Hleaf Hnode.
  fix self 1. intros [co di de [l|]].
  - apply Hnode. induction l as [|k l IH]; constructor; auto.
  - apply Hleaf.
Qed.

Lemma length_flat_map_cons {A : Type} (g : A -> list A) (l : list A) :
  List.length (flat_map (fun k => k :: g k) l)
  = List.length l + list_sum (map (fun k => List.length (g k)) l).
Proof.
  induction l as [|a l IH]; simpl; auto.
  rewrite length_app, IH. lia.
Qed.

Lemma countBelow_conceptsUnder (c : CodeSystemConcept) :
  countBelow c = List.length (conceptsUnder c).
Proof.
  induction c as [co di de|co di de l IH] using concept_induction; auto.
  simpl. rewrite fold_sum, length_flat_map_cons. simpl. f_equal.
  induction IH as [|k l Hk _ IHl]; simpl; auto.
Qed.

(** [countConcepts] is the number of concepts of the forest. *)
Lemma countConcepts_allConcepts (forest : list CodeSystemConcept) :
  countConcepts (Some forest) = List.length (allConcepts forest).
Proof.
  rewrite countConcepts_sum. unfold allConcepts.
  rewrite length_flat_map_cons. f_equal. f_equal.
  apply map_ext. intros. apply countBelow_conceptsUnder.
Qed.

(** ** One concept rule on the forest *)

Lemma levelAt_nil (position : list nat) : levelAt position [] = [].
Proof. destruct position as [|[|i] q]; reflexivity. Qed.

Lemma label_withConcept c below : label (withConcept c below) = label c.
Proof. reflexivity. Qed.

Lemma settled_withConcept c below :
  map settled below = map settled (orEmpty (concept c)) ->
  settled (withConcept c below) = settled c.
Proof.
  destruct c as [co di de [l|]]; simpl; intros ->; reflexivity.
Qed.

(** The walk finds every ancestor exactly when [conceptIndices] does. *)
Lemma walk_found (ancestors : list string) (fresh : CodeSystemConcept) :
  forall container position,
    conceptIndices container ancestors = Some position ->
    snd (walkAndPush ancestors fresh container) = None.
Proof.
  induction ancestors as [|a rest IH]; simpl; intros container position H; auto.
  destruct (find (hasCode a) container) as [[i x]|]; [|discriminate].
  destruct (conceptIndices (orEmpty (concept x)) rest) as [p|] eqn:E; [|discriminate].
  specialize (IH _ _ E).
  destruct (walkAndPush rest fresh (orEmpty (concept x))) as [below missing].
  exact IH.
Qed.

(** When some ancestor is not found, the walk reports the first code that
    has no match at the level the codes before it lead to. *)
Lemma walk_missing (ancestors : list string) (fresh : CodeSystemConcept) :
  forall container,
    conceptIndices container ancestors = None ->
    exists a found rest position,
      ancestors = (found ++ a :: rest)%list
      /\ conceptIndices container found = Some position
      /\ (forall k, In k (levelAt position container) -> hasCode a k = false)
      /\ snd (walkAndPush ancestors fresh container) = Some a.
Proof.
  induction ancestors as [|a rest IH]; simpl; intros container H; [discriminate|].
  destruct (find (hasCode a) container) as [[i x]|] eqn:F.
  - destruct (conceptIndices (orEmpty (concept x)) rest) as [p|] eqn:E; [discriminate|].
    destruct (IH _ E) as (b & found & rest' & position & -> & Hfound & Hnone & Hwalk).
    exists b, (a :: found), rest', (i :: position).
    apply find_some in F as Hx. destruct Hx as (Hnth & _).
    simpl. rewrite F, Hfound. simpl. rewrite Hnth.
    destruct (walkAndPush (found ++ b :: rest') fresh (orEmpty (concept x)))
      as [below missing].
    repeat split; auto.
  - exists a, [], rest, []. simpl. repeat split; auto.
    apply find_none. exact F.
Qed.

(** A rule with a missing ancestor leaves the forest as it was, up to the
    [concept] arrays created on the way. *)
Lemma walk_missing_settled (ancestors : list string) (fresh : CodeSystemConcept) :
  forall container a,
    snd (walkAndPush ancestors fresh container) = Some a ->
    map settled (fst (walkAndPush ancestors fresh container)) = map settled container.
Proof.
  induction ancestors as [|b rest IH]; simpl; intros container a H; [discriminate|].
  destruct (find (hasCode b) container) as [[i x]|] eqn:F; auto.
  apply find_some in F. destruct F as (Hnth & _).
  specialize (IH (orEmpty (concept x)) a).
  destruct (walkAndPush rest fresh (orEmpty (concept x))) as [below missing].
  simpl in *. eapply map_setAt; eauto.
  apply settled_withConcept. auto.
Qed.

(** A rule whose ancestors are all found appends the new concept at the
    level they lead to; every other level keeps its concepts, in order. *)
Lemma walk_found_levels (ancestors : list string) (fresh : CodeSystemConcept) :
  concept fresh = None ->
  forall container position,
    conceptIndices container ancestors = Some position ->
    forall q,
      map label (levelAt q (fst (walkAndPush ancestors fresh container)))
      = (map label (levelAt q container)
         ++ if list_eq_dec Nat.eq_dec position q then [label fresh] else [])%list.
Proof.
  intros Hfresh.
  induction ancestors as [|a rest IH]; simpl; intros container position H q.
  - inversion H; subst. destruct q as [|i q]; simpl.
    + now rewrite map_app.
    + rewrite app_nil_r.
      destruct (Nat.lt_ge_cases i (List.length container)) as [Hi|Hi].
      * now rewrite nth_error_app1.
      * rewrite nth_error_app2 by assumption.
        replace (nth_error container i) with (@None CodeSystemConcept)
          by (symmetry; now apply nth_error_None).
        destruct (i - List.length container) as [|[|n]]; simpl; auto.
        now rewrite Hfresh, levelAt_nil.
  - destruct (find (hasCode a) container) as [[i x]|] eqn:F; [|discriminate].
    destruct (conceptIndices (orEmpty (concept x)) rest) as [p|] eqn:E; [|discriminate].
    inversion H; subst position. clear H.
    apply find_some in F. destruct F as (Hnth & _).
    specialize (IH _ _ E).
    destruct (walkAndPush rest fresh (orEmpty (concept x))) as [below missing].
    simpl in *. destruct q as [|j q]; simpl.
    + rewrite app_nil_r. eapply map_setAt; eauto.
    + destruct (Nat.eq_dec i j) as [<-|Hij].
      * erewrite nth_error_setAt_same by eauto. rewrite Hnth. simpl.
        rewrite IH.
        destruct (list_eq_dec Nat.eq_dec p q);
          destruct (list_eq_dec Nat.eq_dec (i :: p) (i :: q));
          try reflexivity; congruence.
      * rewrite nth_error_setAt_other by assumption.
        destruct (list_eq_dec Nat.eq_dec (i :: p) (j :: q)); [congruence|].
        now rewrite app_nil_r.
Qed.

(** The level the ancestors lead to holds, after the rule, what it held
    before followed by the new concept. *)
Lemma walk_found_last (ancestors : list string) (fresh : CodeSystemConcept) :
  forall container position,
    conceptIndices container ancestors = Some position ->
    levelAt position (fst (walkAndPush ancestors fresh container))
    = (levelAt position container ++ [fresh])%list.
Proof.
  induction ancestors as [|a rest IH]; simpl; intros container position H.
  - inversion H; reflexivity.
  - destruct (find (hasCode a) container) as [[i x]|] eqn:F; [|discriminate].
    destruct (conceptIndices (orEmpty (concept x)) rest) as [p|] eqn:E; [|discriminate].
    inversion H; subst position. clear H.
    apply find_some in F. destruct F as (Hnth & _).
    specialize (IH _ _ E).
    destruct (walkAndPush rest fresh (orEmpty (concept x))) as [below missing].
    simpl in *. erewrite nth_error_setAt_same by eauto. now rewrite Hnth.
Qed.

Lemma walk_found_count (ancestors : list string) (fresh : CodeSystemConcept) :
  concept fresh = None ->
  forall container position,
    conceptIndices container ancestors = Some position ->
    countConcepts (Some (fst (walkAndPush ancestors fresh container)))
    = S (countConcepts (Some container)).
Proof.
  intros Hfresh.
  induction ancestors as [|a rest IH]; simpl fst; intros container position H.
  - simpl walkAndPush. simpl fst. rewrite !countConcepts_sum.
    rewrite length_app, map_app, list_sum_app. simpl.
    rewrite (countBelow_concept fresh), Hfresh. simpl. lia.
  - simpl in H |- *.
    destruct (find (hasCode a) container) as [[i x]|] eqn:F; [|discriminate].
    destruct (conceptIndices (orEmpty (concept x)) rest) as [p|] eqn:E; [|discriminate].
    apply find_some in F. destruct F as (Hnth & _).
    specialize (IH _ _ E).
    destruct (walkAndPush rest fresh (orEmpty (concept x))) as [below missing].
    simpl fst in IH |- *.
    pose proof (sum_setAt countBelow container i (withConcept x below) x Hnth) as Hs.
    rewrite (countBelow_concept x), <- countConcepts_orEmpty in Hs.
    change (countBelow (withConcept x below)) with (countConcepts (Some below)) in Hs.
    rewrite !countConcepts_sum in *. rewrite length_setAt, !fold_sum. simpl. lia.
Qed.

Lemma countBelow_settled (c : CodeSystemConcept) :
  countBelow (settled c) = countBelow c.
Proof.
  induction c as [co di de|co di de l IH] using concept_induction; auto.
  simpl. rewrite !fold_sum, length_map, map_map. simpl. f_equal.
  induction IH as [|k l Hk _ IHl]; simpl; auto.
Qed.

Lemma countConcepts_settled (forest : list CodeSystemConcept) :
  countConcepts (Some (map settled forest)) = countConcepts (Some forest).
Proof.
  rewrite !countConcepts_sum, length_map, map_map. f_equal. f_equal.
  apply map_ext. intros. apply countBelow_settled.
Qed.

Lemma walk_missing_count (ancestors : list string) (fresh : CodeSystemConcept) :
  forall container a,
    snd (walkAndPush ancestors fresh container) = Some a ->
    countConcepts (Some (fst (walkAndPush ancestors fresh container)))
    = countConcepts (Some container).
Proof.
  intros container a H.
  rewrite <- countConcepts_settled, (walk_missing_settled _ _ _ _ H).
  apply countConcepts_settled.
Qed.

(** ** A list of concept rules on the forest *)

Lemma label_settled (c : CodeSystemConcept) : label (settled c) = label c.
Proof. destruct c; reflexivity. Qed.

Lemma orEmpty_settled (c : CodeSystemConcept) :
  orEmpty (concept (settled c)) = map settled (orEmpty (concept c)).
Proof. destruct c as [co di de [l|]]; reflexivity. Qed.

Lemma levelAt_settled (position : list nat) :
  forall forest,
    levelAt position (map settled forest) = map settled (levelAt position forest).
Proof.
  induction position as [|i q IH]; simpl; intros forest; auto.
  rewrite nth_error_map. destruct (nth_error forest i) as [c|]; simpl; auto.
  rewrite orEmpty_settled. apply IH.
Qed.

Lemma settled_levels (f g : list CodeSystemConcept) :
  map settled f = map settled g ->
  forall position, map label (levelAt position f) = map label (levelAt position g).
Proof.
  intros H position.
  assert (E : forall l, map label l = map label (map settled l)).
  { intros l. rewrite map_map. apply map_ext. intros. now rewrite label_settled. }
  rewrite (E (levelAt position f)), (E (levelAt position g)).
  now rewrite <- !levelAt_settled, H.
Qed.

Lemma newConcept_leaf (r : ConceptRule) : concept (newConcept r) = None.
Proof. reflexivity. Qed.

Lemma forestAfter_cons r rs forest :
  forestAfter (r :: rs) forest = forestAfter rs (forestAfterRule r forest).
Proof. reflexivity. Qed.

Lemma forestAfter_app rs rs' forest :
  forestAfter (rs ++ rs') forest = forestAfter rs' (forestAfter rs forest).
Proof. apply fold_left_app. Qed.

Lemma located_cases (r : ConceptRule) (forest : list CodeSystemConcept) :
  (exists position,
      located r forest = Some position
      /\ snd (walkAndPush (hierarchy r) (newConcept r) forest) = None)
  \/ (exists a,
         located r forest = None
         /\ snd (walkAndPush (hierarchy r) (newConcept r) forest) = Some a).
Proof.
  unfold located.
  destruct (conceptIndices forest (hierarchy r)) as [p|] eqn:E.
  - left. exists p. split; auto. eapply walk_found; eauto.
  - right. destruct (walk_missing _ (newConcept r) _ E) as (a & _ & _ & _ & _ & _ & _ & H).
    exists a. auto.
Qed.

(** Every level of the final forest holds what it held at the start and
    then, in source order, the concepts of the rules led to that level. *)
Lemma forestAfter_levels (rs : list ConceptRule) :
  forall forest position,
    map label (levelAt position (forestAfter rs forest))
    = (map label (levelAt position forest)
       ++ map (fun r => label (newConcept r)) (insertedAt position rs forest))%list.
Proof.
  induction rs as [|r rs IH]; intros forest position.
  - simpl. now rewrite app_nil_r.
  - rewrite forestAfter_cons, IH. simpl insertedAt.
    destruct (located_cases r forest) as [(p & Hp & Hw)|(a & Hp & Hw)]; rewrite Hp.
    + unfold forestAfterRule at 1.
      rewrite (walk_found_levels _ _ (newConcept_leaf r) _ _ Hp position).
      destruct (list_eq_dec Nat.eq_dec p position); simpl;
        rewrite <- app_assoc; reflexivity.
    + f_equal. apply settled_levels. unfold forestAfterRule.
      eapply walk_missing_settled; eauto.
Qed.

(** The final forest has one more concept for each rule whose ancestors
    were found, and no other. *)
Lemma forestAfter_count (rs : list ConceptRule) :
  forall forest,
    countConcepts (Some (forestAfter rs forest))
    = countConcepts (Some forest) + List.length (satisfiedRules rs forest).
Proof.
  induction rs as [|r rs IH]; intros forest.
  - simpl satisfiedRules. simpl List.length. simpl forestAfter. lia.
  - rewrite forestAfter_cons, IH. simpl satisfiedRules.
    destruct (located_cases r forest) as [(p & Hp & Hw)|(a & Hp & Hw)]; rewrite Hp.
    + unfold forestAfterRule at 1.
      rewrite (walk_found_count _ _ (newConcept_leaf r) _ _ Hp). simpl. lia.
    + unfold forestAfterRule at 1. rewrite (walk_missing_count _ _ _ _ Hw). lia.
Qed.

Lemma allSatisfied_rules (rs : list ConceptRule) :
  forall forest, allSatisfied rs forest = true -> satisfiedRules rs forest = rs.
Proof.
  induction rs as [|r rs IH]; simpl; intros forest H; auto.
  destruct (located r forest); [|discriminate]. f_equal. auto.
Qed.

Lemma allSatisfied_app (rs rs' : list ConceptRule) :
  forall forest,
    allSatisfied (rs ++ rs') forest = true ->
    allSatisfied rs forest = true /\ allSatisfied rs' (forestAfter rs forest) = true.
Proof.
  induction rs as [|r rs IH]; simpl; intros forest H; auto.
  destruct (located r forest); [|discriminate]. apply IH in H. exact H.
Qed.

(** An ancestor chain that is found names codes of the forest only. *)
Lemma conceptsUnder_orEmpty (c : CodeSystemConcept) :
  conceptsUnder c = allConcepts (orEmpty (concept c)).
Proof. destruct c as [co di de [l|]]; reflexivity. Qed.

Lemma found_in_forest (ancestors : list string) :
  forall container position,
    conceptIndices container ancestors = Some position ->
    forall a, In a ancestors ->
              exists k, In k (allConcepts container) /\ code k = a.
Proof.
  induction ancestors as [|b rest IH]; simpl; intros container position H a Ha.
  - contradiction.
  - destruct (find (hasCode b) container) as [[i x]|] eqn:F; [|discriminate].
    destruct (conceptIndices (orEmpty (concept x)) rest) as [p|] eqn:E; [|discriminate].
    apply find_some in F. destruct F as (Hnth & Hcode & _).
    apply nth_error_In in Hnth.
    destruct Ha as [<-|Ha].
    + exists x. split.
      * unfold allConcepts. apply in_flat_map. exists x. simpl. auto.
      * unfold hasCode in Hcode. now apply String.eqb_eq.
    + destruct (IH _ _ E a Ha) as (k & Hk & Hc).
      exists k. split; auto.
      unfold allConcepts. apply in_flat_map. exists x. split; auto.
      simpl. right. now rewrite conceptsUnder_orEmpty.
Qed.

(** ** The exporter *)

Section ExporterProperties.
Context {D : Domain} {C : Collaborators}.
Variable tank : FSHTank.

(** [setConcepts] touches the logger and the trace only, and its effect is
    the one the views describe. *)
Lemma forEachConcept_runs (rs : list ConceptRule) :
  forall forest st,
    forEachConcept rs forest st
    = (Returned (forestAfter rs forest),
       mkState (world st) (codeSystems st)
               (log st ++ conceptDiagnostics rs forest)
               (trace st ++ map (fun r => ApplyRule (RConcept r)) rs)).
Proof.
  induction rs as [|r rs IH]; intros forest st.
  - destruct st. simpl. unfold ret. now rewrite !app_nil_r.
  - simpl forEachConcept. unfold bind at 1. unfold addConcept, forestAfterRule.
    simpl conceptDiagnostics. unfold forestAfterRule.
    rewrite forestAfter_cons. unfold forestAfterRule.
    destruct (walkAndPush (hierarchy r) (newConcept r) forest) as [forest' [a|]];
      unfold bind, emit, logger, ret; simpl; rewrite IH; simpl;
      rewrite <- !app_assoc; reflexivity.
Qed.

Lemma setConcepts_runs (codeSystem : CodeSystem) (rs : list ConceptRule) st :
  rs <> [] ->
  setConcepts codeSystem rs st
  = (Returned (withConcepts codeSystem (Some (forestAfter rs []))),
     mkState (world st) (codeSystems st)
             (log st ++ conceptDiagnostics rs [])
             (trace st ++ map (fun r => ApplyRule (RConcept r)) rs)).
Proof.
  intros Hrs. destruct rs as [|r rs]; [congruence|].
  unfold setConcepts, bind. rewrite forEachConcept_runs. reflexivity.
Qed.

Lemma conceptDiagnostics_app (rs rs' : list ConceptRule) :
  forall forest,
    conceptDiagnostics (rs ++ rs') forest
    = (conceptDiagnostics rs forest
       ++ conceptDiagnostics rs' (forestAfter rs forest))%list.
Proof.
  induction rs as [|r rs IH]; simpl; intros forest; auto.
  destruct (snd (walkAndPush (hierarchy r) (newConcept r) forest));
    rewrite IH; reflexivity.
Qed.

Lemma conceptDiagnostics_satisfied (rs : list ConceptRule) :
  forall forest, allSatisfied rs forest = true -> conceptDiagnostics rs forest = [].
Proof.
  induction rs as [|r rs IH]; simpl; intros forest H; auto.
  destruct (located_cases r forest) as [(p & Hp & Hw)|(a & Hp & Hw)];
    rewrite Hp in H; [|discriminate].
  rewrite Hw. auto.
Qed.

(** C2.  A concept rule that names an ancestor code absent from the forest
    when the rule is applied is not added to the forest: the forest after
    the rule is the forest before it (up to the [concept] arrays created on
    the way), with as many concepts.  Exactly one diagnostic is logged for
    the rule; it gives the code of the rule and an ancestor code of the rule
    that has no match at the level where it is looked for.  The rules after
    it are processed from that forest, and those whose ancestors are found
    are all inserted. *)
Theorem missing_ancestor_skips_the_rule_only
    (codeSystem : CodeSystem) (before after : list ConceptRule)
    (r : ConceptRule) (a : string) (st : State) :
  In a (hierarchy r) ->
  (forall k, In k (allConcepts (forestAfter before [])) -> code k <> a) ->
  exists missing found rest position,
    let forest := forestAfter before [] in
    let forest' := forestAfterRule r forest in
    hierarchy r = (found ++ missing :: rest)%list
    /\ conceptIndices forest found = Some position
    /\ (forall k, In k (levelAt position forest) -> code k <> missing)
    /\ map settled forest' = map settled forest
    /\ countConcepts (Some forest') = countConcepts (Some forest)
    /\ setConcepts codeSystem (before ++ r :: after) st
       = (Returned (withConcepts codeSystem (Some (forestAfter after forest'))),
          mkState (world st) (codeSystems st)
            (log st
             ++ conceptDiagnostics before []
             ++ [MissingAncestor missing (ruleCode r) (conceptSource r)]
             ++ conceptDiagnostics after forest')
            (trace st
             ++ map (fun c => ApplyRule (RConcept c)) (before ++ r :: after)))
    /\ countConcepts (Some (forestAfter after forest'))
       = countConcepts (Some forest) + List.length (satisfiedRules after forest').
Proof.
  intros Ha Habsent.
  assert (Hnone : conceptIndices (forestAfter before []) (hierarchy r) = None).
  { destruct (conceptIndices (forestAfter before []) (hierarchy r)) as [p|] eqn:E; auto.
    destruct (found_in_forest _ _ _ E a Ha) as (k & Hk & Hc).
    exfalso. exact (Habsent k Hk Hc). }
  destruct (walk_missing _ (newConcept r) _ Hnone)
    as (missing & found & rest & position & Hsplit & Hfound & Hlevel & Hwalk).
  exists missing, found, rest, position. cbv zeta.
  pose proof (walk_missing_settled _ _ _ _ Hwalk) as Hsettled.
  pose proof (walk_missing_count _ _ _ _ Hwalk) as Hcount.
  repeat split; auto.
  - intros k Hk Hc. apply Hlevel in Hk. unfold hasCode in Hk.
    apply String.eqb_neq in Hk. contradiction.
  - rewrite setConcepts_runs by (destruct before; discriminate).
    rewrite forestAfter_app, forestAfter_cons, conceptDiagnostics_app.
    simpl conceptDiagnostics. rewrite Hwalk. reflexivity.
  - rewrite forestAfter_count. unfold forestAfterRule at 1. rewrite Hcount.
    reflexivity.
Qed.

(** C3.  When every rule of a list finds its ancestors at the time it is
    applied, nothing is logged, the forest has exactly one concept per rule,
    each rule puts its concept last at the level its ancestor codes lead to
    from the root, and every level holds, in source order, the concepts of
    the rules led there. *)
Theorem satisfied_rules_are_appended_in_source_order
    (codeSystem : CodeSystem) (rs : list ConceptRule) (st : State) :
  rs <> [] ->
  allSatisfied rs [] = true ->
  exists forest,
    setConcepts codeSystem rs st
    = (Returned (withConcepts codeSystem (Some forest)),
       mkState (world st) (codeSystems st) (log st)
               (trace st ++ map (fun r => ApplyRule (RConcept r)) rs))
    /\ forest = forestAfter rs []
    /\ countConcepts (Some forest) = List.length rs
    /\ (forall position,
          map label (levelAt position forest)
          = map (fun r => label (newConcept r)) (insertedAt position rs []))
    /\ (forall before r after,
          rs = (before ++ r :: after)%list ->
          exists position,
            located r (forestAfter before []) = Some position
            /\ levelAt position (forestAfter (before ++ [r]) [])
               = (levelAt position (forestAfter before []) ++ [newConcept r])%list).
Proof.
  intros Hrs Hsat.
  exists (forestAfter rs []). repeat split.
  - rewrite setConcepts_runs by assumption.
    rewrite conceptDiagnostics_satisfied by assumption.
    now rewrite app_nil_r.
  - rewrite forestAfter_count, allSatisfied_rules by assumption. reflexivity.
  - intros position. rewrite forestAfter_levels, levelAt_nil. reflexivity.
  - intros before r after ->.
    apply allSatisfied_app in Hsat. destruct Hsat as (_ & Hr).
    simpl in Hr.
    destruct (located r (forestAfter before [])) as [p|] eqn:Hp; [|discriminate].
    exists p. split; auto.
    rewrite forestAfter_app. simpl. unfold forestAfterRule.
    apply walk_found_last. exact Hp.
Qed.

Lemma sameOpt_true (a b : option string) : sameOpt a b = true <-> a = b.
Proof.
  destruct a as [x|], b as [y|]; simpl; split; intros H;
    try discriminate; try reflexivity.
  - apply String.eqb_eq in H. now subst.
  - inversion H. apply String.eqb_refl.
Qed.

Lemma sameOpt_false (a b : option string) : sameOpt a b = false <-> a <> b.
Proof.
  rewrite <- sameOpt_true. destruct (sameOpt a b); split; congruence.
Qed.

Lemma countConcepts_total (concepts : option (list CodeSystemConcept)) :
  countConcepts concepts = List.length (allConcepts (orEmpty concepts)).
Proof.
  rewrite <- countConcepts_allConcepts. symmetry. apply countConcepts_orEmpty.
Qed.

(** C1.  [updateCount] does something only when the content is 'complete'.
    Then, with no count set and at least one concept, the count becomes the
    number of concepts of the whole forest and nothing is logged; with a
    count set that is not this number, the code system is left as it is and
    exactly one mismatch diagnostic is logged. *)
Theorem count_is_reconciled_when_complete
    (codeSystem : CodeSystem) (fshDefinition : FshCodeSystem) (st : State) :
  let total := List.length (allConcepts (orEmpty (csConcept codeSystem))) in
  (csContent codeSystem <> Some "complete" ->
   updateCount codeSystem fshDefinition st = (Returned codeSystem, st))
  /\ (csContent codeSystem = Some "complete" ->
      csCount codeSystem = None ->
      0 < total ->
      updateCount codeSystem fshDefinition st
      = (Returned (withCount codeSystem (Some (Z.of_nat total))), st))
  /\ (forall count,
        csContent codeSystem = Some "complete" ->
        csCount codeSystem = Some count ->
        count <> Z.of_nat total ->
        updateCount codeSystem fshDefinition st
        = (Returned codeSystem,
           mkState (world st) (codeSystems st)
             (log st ++ [CountMismatch (Some count)
                           (if Nat.eqb total 0 then None else Some total)
                           (countSource fshDefinition)])
             (trace st))).
Proof.
  intros total. unfold updateCount, actualCountOf.
  rewrite (countConcepts_total (csConcept codeSystem)). fold total.
  repeat split.
  - intros H. apply sameOpt_false in H. now rewrite H.
  - intros Hc Hn Ht. apply sameOpt_true in Hc. rewrite Hc, Hn.
    destruct total; [lia|]. reflexivity.
  - intros count Hc Hn Hd. apply sameOpt_true in Hc. rewrite Hc, Hn.
    assert (E : countDiffers (Some count)
                  (if Nat.eqb total 0 then None else Some total) = true).
    { destruct (Nat.eqb total 0); simpl; auto.
      apply negb_true_iff. now apply Z.eqb_neq. }
    destruct (Nat.eqb total 0); rewrite E; reflexivity.
Qed.

(** ** Every step of the export returns, and what it leaves behind *)

Lemma reported_at (at_ : SourceInfo) (said : list (Level * string)) :
  Forall (reportedAt at_) (map (fun m => Reported (fst m) (snd m) at_) said).
Proof.
  induction said as [|m said IH]; simpl; constructor; auto.
  exists (fst m), (snd m). reflexivity.
Qed.

Lemma setMetadata_reports (fshDefinition : FshCodeSystem) st :
  exists codeSystem',
    setMetadata tank emptyCodeSystem fshDefinition st
    = (Returned codeSystem',
       mkState (snd (identifiedFrom fshDefinition (world st))) (codeSystems st)
               (log st ++ metadataReports fshDefinition (world st)) (trace st)).
Proof.
  unfold setMetadata, bind, report, ret, metadataReports, identifiedFrom, namedFrom.
  simpl.
  destruct (setName (name fshDefinition) (sourceInfo fshDefinition) emptyCodeSystem
                    (world st))
    as [[c1 said1] w1]. simpl.
  destruct (setId (id fshDefinition) (sourceInfo fshDefinition) c1 w1)
    as [[c2 said2] w2].
  simpl. eexists. rewrite <- app_assoc, map_app. reflexivity.
Qed.

Lemma setMetadata_runs (codeSystem : CodeSystem) (fshDefinition : FshCodeSystem) st :
  exists codeSystem' w reported,
    setMetadata tank codeSystem fshDefinition st
    = (Returned codeSystem',
       mkState w (codeSystems st) (log st ++ reported) (trace st))
    /\ Forall (reportedAt (sourceInfo fshDefinition)) reported.
Proof.
  unfold setMetadata, bind, report, ret. simpl.
  destruct (setName (name fshDefinition) (sourceInfo fshDefinition) codeSystem (world st))
    as [[c1 said1] w1]. simpl.
  destruct (setId (id fshDefinition) (sourceInfo fshDefinition) c1 w1)
    as [[c2 said2] w2].
  simpl. do 3 eexists. rewrite <- app_assoc. split; [reflexivity|].
  apply Forall_app. split; apply reported_at.
Qed.

(** One rule, one [try]: the call returns whatever the collaborators do, at
    most one diagnostic is logged, and it carries the location given. *)
Lemma assign_runs (sd : StructureDefinition) (path : string) (v : Value)
    (at_ : SourceInfo) (codeSystem : CodeSystem) st :
  exists codeSystem' w diags,
    assign sd path v at_ codeSystem st
    = (Returned codeSystem',
       mkState w (codeSystems st) (log st ++ diags)
               (trace st ++ [CallValidateValueAtPath path v]))
    /\ (diags = [] \/ exists e, diags = [RuleFailure e at_]).
Proof.
  unfold assign, bind, emit, call, logger, ret. simpl.
  destruct (validateValueAtPath sd path v (world st)) as [[e|resolved] w1]; simpl.
  - exists codeSystem, w1, [RuleFailure e at_]. eauto.
  - destruct (setPropertyOnInstance codeSystem resolved w1) as [[c2 [e|]] w2]; simpl.
    + exists c2, w2, [RuleFailure e at_]. eauto.
    + exists c2, w2, []. rewrite app_nil_r. auto.
Qed.

Lemma forCaretRules_runs (sd : StructureDefinition) (rs : list CaretValueRule) :
  forall codeSystem st,
  exists codeSystem' w diags,
    forCaretRules sd rs codeSystem st
    = (Returned codeSystem',
       mkState w (codeSystems st) (log st ++ diags) (trace st ++ caretEvents rs))
    /\ Forall (fun d => exists e r, In r rs /\ d = RuleFailure e (caretSource r)) diags.
Proof.
  induction rs as [|r rs IH]; intros codeSystem st.
  - exists codeSystem, (world st), []. destruct st. simpl. unfold ret.
    rewrite !app_nil_r. auto.
  - simpl forCaretRules. unfold bind at 1. unfold emit at 1.
    unfold bind at 1.
    match goal with
    | |- context [assign ?a ?b ?c ?d ?e ?s] =>
        destruct (assign_runs a b c d e s) as (c1 & w1 & d1 & E1 & H1)
    end.
    rewrite E1.
    match goal with
    | |- context [forCaretRules sd rs c1 ?s] =>
        destruct (IH c1 s) as (c2 & w2 & d2 & E2 & H2)
    end.
    exists c2, w2, (d1 ++ d2)%list. simpl in *. split.
    + rewrite E2. rewrite <- !app_assoc. reflexivity.
    + apply Forall_app. split.
      * destruct H1 as [->|(e & ->)]; constructor; eauto.
      * eapply Forall_impl; [|exact H2]. simpl.
        intros d (e & r' & Hin & ->). eauto.
Qed.

Lemma setCaretRules_runs (codeSystem : CodeSystem) (sd : StructureDefinition)
    (rs : list CaretValueRule) st :
  exists codeSystem' resolved w diags,
    setCaretRules codeSystem sd rs st
    = (Returned (codeSystem', resolved),
       mkState w (codeSystems st) (log st ++ diags)
               (trace st ++ SoftIndexesResolved rs resolved :: caretEvents resolved))
    /\ (exists w0, resolved = fst (resolveSoftIndexing rs w0))
    /\ Forall (fun d => exists e r, In r resolved /\ d = RuleFailure e (caretSource r))
              diags.
Proof.
  unfold setCaretRules, bind at 1. unfold call at 1.
  destruct (resolveSoftIndexing rs (world st)) as [resolved w0] eqn:R.
  unfold bind at 1. unfold emit at 1. unfold bind at 1.
  match goal with
  | |- context [forCaretRules sd resolved codeSystem ?s] =>
      destruct (forCaretRules_runs sd resolved codeSystem s) as (c1 & w1 & d1 & E1 & H1)
  end.
  rewrite E1. exists c1, resolved, w1, d1. simpl. split; [|split; [|exact H1]].
  - unfold ret. rewrite <- app_assoc. reflexivity.
  - exists (world st). now rewrite R.
Qed.

Lemma applyCodeCaretRule_runs (sd : StructureDefinition) (r : CodeCaretValueRule)
    (codeSystem : CodeSystem) st :
  exists codeSystem' w diags events,
    applyCodeCaretRule sd r codeSystem st
    = (Returned codeSystem',
       mkState w (codeSystems st) (log st ++ diags) (trace st ++ events))
    /\ (diags = [] \/ exists e, diags = [RuleFailure e (codeCaretSource r)])
    /\ (events = [ApplyRule (RCodeCaretValue r)]
        \/ exists conceptPath,
             events = [ApplyRule (RCodeCaretValue r);
                       CallValidateValueAtPath
                         (conceptPath ++ "." ++ conceptCaretPath r) (conceptValue r)]).
Proof.
  unfold applyCodeCaretRule, bind at 1. unfold emit at 1.
  destruct (findConceptPath codeSystem (codePath r)) as [e|conceptPath].
  - unfold bind, logger, ret. simpl.
    exists codeSystem, (world st), [RuleFailure e (codeCaretSource r)],
      [ApplyRule (RCodeCaretValue r)].
    split; [reflexivity|split; [right; eauto|left; reflexivity]].
  - match goal with
    | |- context [assign ?a ?b ?c ?d ?e ?s] =>
        destruct (assign_runs a b c d e s) as (c1 & w1 & d1 & E1 & H1)
    end.
    rewrite E1. simpl.
    exists c1, w1, d1,
      [ApplyRule (RCodeCaretValue r);
       CallValidateValueAtPath (conceptPath ++ "." ++ conceptCaretPath r) (conceptValue r)].
    rewrite <- app_assoc. simpl.
    split; [reflexivity|split; [exact H1|right; eauto]].
Qed.

Lemma setCodeCaretRules_runs (sd : StructureDefinition) (rs : list CodeCaretValueRule) :
  forall codeSystem st,
  exists codeSystem' w diags events,
    setCodeCaretRules codeSystem sd rs st
    = (Returned codeSystem',
       mkState w (codeSystems st) (log st ++ diags) (trace st ++ events))
    /\ Forall (fun d => exists e r, In r rs /\ d = RuleFailure e (codeCaretSource r))
              diags
    /\ CodeCaretEvents rs events.
Proof.
  induction rs as [|r rs IH]; intros codeSystem st.
  - exists codeSystem, (world st), [], []. destruct st. simpl. unfold ret.
    rewrite !app_nil_r. repeat split; auto. constructor.
  - simpl setCodeCaretRules. unfold bind at 1.
    destruct (applyCodeCaretRule_runs sd r codeSystem st)
      as (c1 & w1 & d1 & ev1 & E1 & H1 & T1).
    rewrite E1.
    match goal with
    | |- context [setCodeCaretRules c1 sd rs ?s] =>
        destruct (IH c1 s) as (c2 & w2 & d2 & ev2 & E2 & H2 & T2)
    end.
    exists c2, w2, (d1 ++ d2)%list, (ev1 ++ ev2)%list. simpl in *.
    repeat split.
    + rewrite E2. rewrite <- !app_assoc. reflexivity.
    + apply Forall_app. split.
      * destruct H1 as [->|(e & ->)]; constructor; eauto.
      * eapply Forall_impl; [|exact H2]. simpl.
        intros d (e & r' & Hin & ->). eauto.
    + destruct T1 as [->|(p & ->)]; simpl; constructor; assumption.
Qed.

Lemma updateCount_runs (codeSystem : CodeSystem) (fshDefinition : FshCodeSystem) st :
  exists codeSystem' diags,
    updateCount codeSystem fshDefinition st
    = (Returned codeSystem',
       mkState (world st) (codeSystems st) (log st ++ diags) (trace st))
    /\ csName codeSystem' = csName codeSystem
    /\ csId codeSystem' = csId codeSystem
    /\ (diags = []
        \/ exists count actualCount,
             diags = [CountMismatch count actualCount (countSource fshDefinition)]).
Proof.
  unfold updateCount.
  assert (Hsame : forall c : CodeSystem,
             (Returned c, st)
             = (Returned c, mkState (world st) (codeSystems st) (log st ++ []) (trace st))).
  { intros c. destruct st. simpl. now rewrite app_nil_r. }
  destruct (sameOpt (csContent codeSystem) (Some "complete")).
  - destruct (csCount codeSystem) as [c|] eqn:Hc.
    + destruct (countDiffers (Some c) (actualCountOf codeSystem)).
      * exists codeSystem. eexists. unfold bind, logger, ret. simpl.
        repeat split. right. eauto.
      * exists codeSystem, []. unfold ret. rewrite <- Hsame. auto.
    + destruct (actualCountOf codeSystem) as [n|].
      * exists (withCount codeSystem (Some (Z.of_nat n))), []. unfold ret.
        rewrite <- Hsame. auto.
      * simpl. exists codeSystem, []. unfold ret. rewrite <- Hsame. auto.
  - exists codeSystem, []. unfold ret. rewrite <- Hsame. auto.
Qed.

Lemma bind_returned {A B : Type} (m : M A) (k : A -> M B) st a st' :
  m st = (Returned a, st') -> bind m k st = k a st'.
Proof. unfold bind. now intros ->. Qed.

Lemma bind_threw {A B : Type} (m : M A) (k : A -> M B) st e st' :
  m st = (Threw e, st') -> bind m k st = (Threw e, st').
Proof. unfold bind. now intros ->. Qed.

Lemma conceptRules_rewritten (rs : list Rule) :
  forall resolved, conceptRules (rewritten rs resolved) = conceptRules rs.
Proof.
  induction rs as [|[c|c|c|n] rs IH]; intros resolved; simpl; auto.
  - destruct resolved; simpl; auto.
  - now rewrite IH.
Qed.

Lemma codeCaretValueRules_rewritten (rs : list Rule) :
  forall resolved, codeCaretValueRules (rewritten rs resolved) = codeCaretValueRules rs.
Proof.
  induction rs as [|[c|c|c|n] rs IH]; intros resolved; simpl; auto.
  - destruct resolved; simpl; auto.
  - now rewrite IH.
Qed.

Lemma setConcepts_any (codeSystem : CodeSystem) (rs : list ConceptRule) st :
  exists codeSystem',
    setConcepts codeSystem rs st
    = (Returned codeSystem',
       mkState (world st) (codeSystems st)
               (log st ++ conceptDiagnostics rs [])
               (trace st ++ map (fun r => ApplyRule (RConcept r)) rs))
    /\ csName codeSystem' = csName codeSystem
    /\ csId codeSystem' = csId codeSystem.
Proof.
  destruct rs as [|r rs].
  - exists codeSystem. destruct st. simpl. unfold ret. rewrite !app_nil_r. auto.
  - eexists. rewrite setConcepts_runs by discriminate. auto.
Qed.

(** An entity whose name is the name of a code system of the package is
    not exported: nothing at all happens. *)
Lemma exportCodeSystem_skips (fshDefinition : FshCodeSystem) st :
  existsb (fun cs => sameOpt (csName cs) (Some (name fshDefinition))) (codeSystems st)
  = true ->
  exportCodeSystem tank fshDefinition st = (Returned None, st).
Proof.
  intros H. unfold exportCodeSystem, bind at 1. unfold getCodeSystems.
  now rewrite H.
Qed.

(** An entity that is not skipped is exported unless the lookup of the
    CodeSystem definition throws; the lemma gives the state either way. *)
Lemma exportCodeSystem_exports (fshDefinition : FshCodeSystem) st :
  existsb (fun cs => sameOpt (csName cs) (Some (name fshDefinition))) (codeSystems st)
  = false ->
  exists expanded w0 reported,
    (exists w, expanded = fst (applyInsertRules fshDefinition tank w))
    /\ Forall (reportedAt (sourceInfo fshDefinition)) reported
    /\ w0 = worldAtLookup tank fshDefinition (world st)
    /\ reported = metadataReports fshDefinition (world st)
    /\ (forall err w1,
        fishStructureDefinition w0 = (inl err, w1) ->
        exportCodeSystem tank fshDefinition st
        = (Threw err,
           mkState w1 (codeSystems st) (log st ++ reported)
                   (trace st ++ [Reached Init; Reached MetadataSet])))
    /\ (forall sd w1,
          fishStructureDefinition w0 = (inr sd, w1) ->
          exists d w resolved caretDiags codeCaretDiags codeCaret countDiags,
            exportCodeSystem tank fshDefinition st
            = (Returned (Some d),
               mkState w (codeSystems st ++ [d])
                 (log st
                  ++ reported
                  ++ caretDiags
                  ++ conceptDiagnostics (conceptRules expanded) []
                  ++ codeCaretDiags
                  ++ (if existsb (fun cs => sameOpt (csId d) (csId cs)) (codeSystems st)
                      then [DuplicateId (csId d) (sourceInfo fshDefinition)]
                      else [])
                  ++ countDiags)
                 (trace st
                  ++ exportEvents (caretValueRules expanded) resolved
                       (conceptRules expanded) codeCaret))
            /\ (exists w2, resolved = fst (resolveSoftIndexing (caretValueRules expanded) w2))
            /\ Forall (fun d => exists e r,
                           In r resolved /\ d = RuleFailure e (caretSource r))
                      caretDiags
            /\ Forall (fun d => exists e r,
                           In r (codeCaretValueRules expanded)
                           /\ d = RuleFailure e (codeCaretSource r))
                      codeCaretDiags
            /\ CodeCaretEvents (codeCaretValueRules expanded) codeCaret
            /\ (countDiags = []
                \/ exists count actualCount at_,
                     countDiags = [CountMismatch count actualCount at_])).
Proof.
  intros Hname.
  remember (exportCodeSystem tank fshDefinition st) as run eqn:Hrun.
  unfold exportCodeSystem in Hrun.
  unfold bind at 1 in Hrun. unfold getCodeSystems at 1 in Hrun. rewrite Hname in Hrun.
  unfold bind at 1 in Hrun. unfold emit at 1 in Hrun.
  unfold bind at 1 in Hrun.
  destruct (setMetadata_reports fshDefinition
              (mkState (world st) (codeSystems st) (log st) (trace st ++ [Reached Init])))
    as (c0 & Em).
  rewrite Em in Hrun. simpl in Hrun.
  remember (snd (identifiedFrom fshDefinition (world st))) as wm eqn:Hwm.
  remember (metadataReports fshDefinition (world st)) as said eqn:Esaid.
  assert (Hsaid : Forall (reportedAt (sourceInfo fshDefinition)) said).
  { subst said. apply reported_at. }
  unfold bind at 1 in Hrun. unfold emit at 1 in Hrun. simpl in Hrun.
  unfold bind at 1 in Hrun. unfold call at 1 in Hrun. simpl in Hrun.
  destruct (applyInsertRules fshDefinition tank wm) as [expanded w0] eqn:Hexp.
  unfold bind at 1 in Hrun. unfold callOrThrow, bind at 1 in Hrun.
  unfold call at 1 in Hrun. simpl in Hrun.
  exists expanded, w0, said. split; [exists wm; now rewrite Hexp|].
  split; [exact Hsaid|].
  split; [unfold worldAtLookup; rewrite <- Hwm, Hexp; reflexivity|].
  split; [reflexivity|]. split.
  - intros err w1 Hfish. rewrite Hfish in Hrun. unfold throw in Hrun.
    simpl in Hrun. rewrite <- app_assoc in Hrun. exact Hrun.
  - intros sd w1 Hfish. rewrite Hfish in Hrun. unfold ret at 1 in Hrun.
    simpl in Hrun.
    unfold bind at 1 in Hrun.
    match type of Hrun with
    | context [setCaretRules ?c ?d ?r ?s] =>
        destruct (setCaretRules_runs c d r s) as (c1 & resolved & w2 & d1 & E1 & R1 & H1)
    end.
    rewrite E1 in Hrun. simpl in Hrun.
    unfold bind at 1 in Hrun. unfold emit at 1 in Hrun. simpl in Hrun.
    rewrite conceptRules_rewritten, codeCaretValueRules_rewritten in Hrun.
    unfold bind at 1 in Hrun.
    match type of Hrun with
    | context [setConcepts ?c ?r ?s] =>
        destruct (setConcepts_any c r s) as (c2 & E2 & N2 & I2)
    end.
    rewrite E2 in Hrun. simpl in Hrun.
    unfold bind at 1 in Hrun. unfold emit at 1 in Hrun. simpl in Hrun.
    unfold bind at 1 in Hrun.
    match type of Hrun with
    | context [setCodeCaretRules ?c ?d ?r ?s] =>
        destruct (setCodeCaretRules_runs d r c s) as (c3 & w3 & d3 & ev3 & E3 & H3 & T3)
    end.
    rewrite E3 in Hrun. simpl in Hrun.
    unfold bind at 1 in Hrun. unfold emit at 1 in Hrun. simpl in Hrun.
    unfold bind at 1 in Hrun. unfold getCodeSystems at 1 in Hrun. simpl in Hrun.
    unfold bind at 1 in Hrun.
    match type of Hrun with
    | context [updateCount ?c ?f] =>
        pose proof (fun s => updateCount_runs c f s) as Hu
    end.
    destruct (existsb (fun cs => sameOpt (csId c3) (csId cs)) (codeSystems st)) eqn:Hdup.
    + unfold logger at 1 in Hrun. simpl in Hrun. unfold bind at 1 in Hrun.
      match type of Hrun with
      | context [updateCount ?c ?f ?s] =>
          destruct (Hu s) as (c4 & d4 & E4 & N4 & I4 & H4)
      end.
      rewrite E4 in Hrun. simpl in Hrun.
      unfold bind, emit, push, ret in Hrun. simpl in Hrun.
      exists c4, w3, resolved, d1, d3, ev3, d4.
      rewrite I4, Hdup. split; [|repeat split; auto].
      * rewrite Hrun. unfold exportEvents. simpl. rewrite <- !app_assoc. simpl.
        rewrite <- ?app_assoc. reflexivity.
      * destruct H4 as [->|(c & a & ->)]; eauto.
    + unfold ret at 1 in Hrun. simpl in Hrun. unfold bind at 1 in Hrun.
      match type of Hrun with
      | context [updateCount ?c ?f ?s] =>
          destruct (Hu s) as (c4 & d4 & E4 & N4 & I4 & H4)
      end.
      rewrite E4 in Hrun. simpl in Hrun.
      unfold bind, emit, push, ret in Hrun. simpl in Hrun.
      exists c4, w3, resolved, d1, d3, ev3, d4.
      rewrite I4, Hdup. split; [|repeat split; auto].
      * rewrite Hrun. unfold exportEvents. simpl. rewrite <- !app_assoc. simpl.
        rewrite <- ?app_assoc. reflexivity.
      * destruct H4 as [->|(c & a & ->)]; eauto.
Qed.

(** The three ways [exportCodeSystem] ends. *)
Lemma exportCodeSystem_outcome (fshDefinition : FshCodeSystem) st :
  let named :=
    existsb (fun cs => sameOpt (csName cs) (Some (name fshDefinition)))
            (codeSystems st) in
  match exportCodeSystem tank fshDefinition st with
  | (Returned None, st') => named = true /\ st' = st
  | (Returned (Some d), st') => named = false /\ ExportedAs tank fshDefinition st d st'
  | (Threw err, st') =>
      named = false
      /\ codeSystems st' = codeSystems st
      /\ (exists reported,
            log st' = (log st ++ reported)%list
            /\ Forall (reportedAt (sourceInfo fshDefinition)) reported)
      /\ trace st' = (trace st ++ [Reached Init; Reached MetadataSet])%list
      /\ exists w, fishStructureDefinition w = (inl err, world st')
  end.
Proof.
  intros named. subst named.
  destruct (existsb (fun cs => sameOpt (csName cs) (Some (name fshDefinition)))
                    (codeSystems st)) eqn:Hname.
  - rewrite exportCodeSystem_skips by assumption. auto.
  - destruct (exportCodeSystem_exports fshDefinition st Hname)
      as (expanded & w0 & said & Hexp & Hsaid & _ & _ & Hthrow & Hok).
    destruct (fishStructureDefinition w0) as [[err|sd] w1] eqn:Hfish.
    + rewrite (Hthrow err w1 eq_refl). simpl.
      split; [reflexivity|]. split; [reflexivity|].
      split; [exists said; auto|]. split; [reflexivity|].
      exists w0. exact Hfish.
    + destruct (Hok sd w1 eq_refl)
        as (d & w & resolved & d1 & d3 & cc & d4 & E & R & H1 & H3 & T & H4).
      rewrite E. split; auto.
      exists expanded, resolved, said, d1, d3, cc, d4. simpl. repeat split; auto.
Qed.

Lemma exportCodeSystem_returned (fshDefinition : FshCodeSystem) st d st' :
  exportCodeSystem tank fshDefinition st = (Returned (Some d), st') ->
  ExportedAs tank fshDefinition st d st'.
Proof.
  intros H. pose proof (exportCodeSystem_outcome fshDefinition st) as O.
  simpl in O. rewrite H in O. tauto.
Qed.

Lemma exportedAs_package (fshDefinition : FshCodeSystem) st d st' :
  ExportedAs tank fshDefinition st d st' ->
  codeSystems st' = (codeSystems st ++ [d])%list.
Proof. intros (? & ? & ? & ? & ? & ? & ? & _ & _ & H & _). exact H. Qed.

Lemma exportEach_cons (cs : FshCodeSystem) (rest : list FshCodeSystem) st :
  exportEach tank (cs :: rest) st
  = match exportCodeSystem tank cs st with
    | (Returned _, st') => exportEach tank rest st'
    | (Threw e, st') =>
        exportEach tank rest
          (mkState (world st') (codeSystems st')
                   (log st' ++ [EntityFailure e (sourceInfo cs)]) (trace st'))
    end.
Proof.
  simpl. unfold bind at 1. unfold tryCatch. unfold bind at 1.
  destruct (exportCodeSystem tank cs st) as [[o|e] st']; reflexivity.
Qed.

(** C4.  Of two entities with the same name, when the first has been
    exported and its document bears that name, the export of the second, at
    any later moment of the run, returns without a document and leaves the
    package, the logger and everything else as they were; exporting the two
    in a row ends in the state the first one alone leaves. *)
Theorem same_name_is_exported_once
    (first second : FshCodeSystem) (st st1 st2 : State) (d1 : CodeSystem) :
  name second = name first ->
  exportCodeSystem tank first st = (Returned (Some d1), st1) ->
  csName d1 = Some (name first) ->
  (exists later, codeSystems st2 = (codeSystems st1 ++ later)%list) ->
  In d1 (codeSystems st2)
  /\ exportCodeSystem tank second st2 = (Returned None, st2)
  /\ exportEach tank [first; second] st = (Returned tt, st1).
Proof.
  intros Hname Hfirst Hd1 (later & Hlater).
  pose proof (exportedAs_package _ _ _ _ (exportCodeSystem_returned _ _ _ _ Hfirst))
    as Hpkg.
  assert (Hin1 : In d1 (codeSystems st1)).
  { rewrite Hpkg. apply in_or_app. right. simpl. auto. }
  assert (Hskip : forall s,
             In d1 (codeSystems s) ->
             exportCodeSystem tank second s = (Returned None, s)).
  { intros s Hin. apply exportCodeSystem_skips. apply existsb_exists.
    exists d1. split; auto. apply sameOpt_true. now rewrite Hname. }
  assert (Hin2 : In d1 (codeSystems st2)).
  { rewrite Hlater. apply in_or_app. auto. }
  repeat split; auto.
  rewrite exportEach_cons, Hfirst, exportEach_cons, (Hskip st1 Hin1).
  reflexivity.
Qed.

Lemma filter_nothing {A : Type} (f : A -> bool) (l : list A) :
  Forall (fun x => f x = false) l -> filter f l = [].
Proof.
  induction 1 as [|x l Hx _ IH]; simpl; auto. now rewrite Hx.
Qed.

Lemma conceptDiagnostics_kind (rs : list ConceptRule) :
  forall forest,
    Forall (fun d => exists a r, In r rs
                                 /\ d = MissingAncestor a (ruleCode r) (conceptSource r))
           (conceptDiagnostics rs forest).
Proof.
  induction rs as [|r rs IH]; simpl; intros forest; [constructor|].
  assert (Hrest : Forall (fun d => exists a r', (r = r' \/ In r' rs)
                            /\ d = MissingAncestor a (ruleCode r') (conceptSource r'))
                    (conceptDiagnostics rs (forestAfterRule r forest))).
  { eapply Forall_impl; [|apply IH]. simpl. intros d (a & r' & Hin & ->). eauto. }
  destruct (snd (walkAndPush (hierarchy r) (newConcept r) forest)); auto.
  constructor; eauto.
Qed.


Lemma reported_no_duplicate (at_ : SourceInfo) (diags : list Diagnostic) :
  Forall (reportedAt at_) diags -> filter isDuplicateId diags = [].
Proof.
  intros H. apply filter_nothing. eapply Forall_impl; [|exact H].
  intros d (level & text & ->). reflexivity.
Qed.

(** C5, for the ids the documents have.  When an entity is exported into a
    document after another one was, and the two documents have the same id
    ([setId] and the caret rules decide the id of a document, which need not
    be the id of its entity), both documents are in the package afterwards
    and the export of the later one logs exactly one duplicate-id
    diagnostic, at the location of the later entity. *)
Theorem same_id_is_reported_once
    (first second : FshCodeSystem) (st st1 st2 st3 : State) (d1 d2 : CodeSystem) :
  exportCodeSystem tank first st = (Returned (Some d1), st1) ->
  (exists later, codeSystems st2 = (codeSystems st1 ++ later)%list) ->
  exportCodeSystem tank second st2 = (Returned (Some d2), st3) ->
  csId d2 = csId d1 ->
  In d1 (codeSystems st3)
  /\ In d2 (codeSystems st3)
  /\ exists diags,
       log st3 = (log st2 ++ diags)%list
       /\ filter isDuplicateId diags = [DuplicateId (csId d2) (sourceInfo second)].
Proof.
  intros Hfirst (later & Hlater) Hsecond Hid.
  pose proof (exportedAs_package _ _ _ _ (exportCodeSystem_returned _ _ _ _ Hfirst))
    as Hpkg1.
  destruct (exportCodeSystem_returned _ _ _ _ Hsecond)
    as (expanded & resolved & said & d1s & d3s & cc & d4s
        & _ & _ & Hpkg & Hlog & _ & H1 & H3 & _ & H4 & Hsaid).
  assert (Hin : In d1 (codeSystems st2)).
  { rewrite Hlater, Hpkg1. apply in_or_app. left. apply in_or_app. right.
    simpl. auto. }
  assert (Hdup : existsb (fun cs => sameOpt (csId d2) (csId cs)) (codeSystems st2)
                 = true).
  { apply existsb_exists. exists d1. split; auto. now apply sameOpt_true. }
  rewrite Hdup in Hlog.
  split; [rewrite Hpkg; apply in_or_app; auto|].
  split; [rewrite Hpkg; apply in_or_app; right; simpl; auto|].
  eexists. split; [exact Hlog|].
  rewrite !filter_app.
  rewrite (reported_no_duplicate _ _ Hsaid).
  rewrite (filter_nothing isDuplicateId d1s), (filter_nothing isDuplicateId d3s),
    (filter_nothing isDuplicateId (conceptDiagnostics _ _)),
    (filter_nothing isDuplicateId d4s).
  - reflexivity.
  - destruct H4 as [->|(c & a & s & ->)]; repeat constructor.
  - eapply Forall_impl; [|apply conceptDiagnostics_kind].
    simpl. intros d (a & r & _ & ->). reflexivity.
  - eapply Forall_impl; [|exact H3]. simpl. intros d (e & r & _ & ->). reflexivity.
  - eapply Forall_impl; [|exact H1]. simpl. intros d (e & r & _ & ->). reflexivity.
Qed.

(** ** Concept paths *)

Lemma findFrom_first {A : Type} (p : A -> bool) (l : list A) :
  forall k i x,
    nth_error l i = Some x ->
    p x = true ->
    (forall j y, j < i -> nth_error l j = Some y -> p y = false) ->
    findFrom p l k = Some (k + i, x).
Proof.
  induction l as [|a l IH]; intros k [|i] x Hnth Hx Hfirst; simpl in *;
    try discriminate.
  - inversion Hnth; subst. rewrite Hx. now rewrite Nat.add_0_r.
  - rewrite (Hfirst 0 a) by (auto; lia).
    rewrite (IH (S k) i x); auto.
    + f_equal. f_equal. lia.
    + intros j y Hj Hy. apply (Hfirst (S j)); auto. lia.
Qed.

Lemma find_first {A : Type} (p : A -> bool) (l : list A) i x :
  nth_error l i = Some x ->
  p x = true ->
  (forall j y, j < i -> nth_error l j = Some y -> p y = false) ->
  find p l = Some (i, x).
Proof. intros. unfold find. now rewrite (findFrom_first p l 0 i x). Qed.

Lemma leads_indices (forest : list CodeSystemConcept) (codes : list string)
    (positions : list nat) :
  Leads forest codes positions -> conceptIndices forest codes = Some positions.
Proof.
  induction 1 as [|forest step rest i positions k Hnth Hcode Hfirst _ IH]; simpl; auto.
  rewrite (find_first (hasCode step) forest i k); auto.
  - now rewrite IH.
  - unfold hasCode. now apply String.eqb_eq.
  - intros j y Hj Hy. unfold hasCode. apply String.eqb_neq. eauto.
Qed.

Lemma indices_leads (codes : list string) :
  forall forest positions,
    conceptIndices forest codes = Some positions -> Leads forest codes positions.
Proof.
  induction codes as [|step rest IH]; simpl; intros forest positions H.
  - inversion H. constructor.
  - destruct (find (hasCode step) forest) as [[i k]|] eqn:F; [|discriminate].
    destruct (conceptIndices (orEmpty (concept k)) rest) as [p|] eqn:E; [|discriminate].
    inversion H; subst. apply find_some in F. destruct F as (Hnth & Hcode & Hfirst).
    econstructor; eauto.
    + unfold hasCode in Hcode. now apply String.eqb_eq.
    + intros j y Hj Hy. apply Hfirst in Hy; auto. unfold hasCode in Hy.
      now apply String.eqb_neq.
Qed.

Lemma conceptIndices_app (found : list string) :
  forall forest positions later,
    conceptIndices forest found = Some positions ->
    conceptIndices forest (found ++ later)
    = option_map (app positions) (conceptIndices (levelAt positions forest) later).
Proof.
  induction found as [|step rest IH]; simpl; intros forest positions later H.
  - inversion H. simpl. now destruct (conceptIndices forest later).
  - destruct (find (hasCode step) forest) as [[i k]|] eqn:F; [|discriminate].
    destruct (conceptIndices (orEmpty (concept k)) rest) as [p|] eqn:E; [|discriminate].
    inversion H; subst. apply find_some in F. destruct F as (Hnth & _).
    rewrite (IH _ _ later E). simpl. rewrite Hnth.
    now destruct (conceptIndices (levelAt p (orEmpty (concept k))) later).
Qed.

Lemma conceptIndices_absent (forest : list CodeSystemConcept)
    (found rest : list string) (step : string) (positions : list nat) :
  Leads forest found positions ->
  (forall k, In k (levelAt positions forest) -> code k <> step) ->
  conceptIndices forest (found ++ step :: rest) = None.
Proof.
  intros Hleads Habsent. apply leads_indices in Hleads.
  rewrite (conceptIndices_app _ _ _ _ Hleads). simpl.
  replace (find (hasCode step) (levelAt positions forest))
    with (@None (nat * CodeSystemConcept)); auto.
  symmetry. apply find_none. intros k Hk. unfold hasCode.
  apply String.eqb_neq. auto.
Qed.

(** C6.  A code caret rule whose code path has a code with no match at its
    level of the forest is not translated: [findConceptPath] throws a
    [CannotResolvePathError] built from the whole code path, the rule logs
    it at its own location, nothing is validated, no collaborator is called
    and the code system comes back as it was, and the next rules are handled
    from there.  When every code has a match, the translation is the dotted
    path of the positions, and the caret path is validated under it. *)
Theorem code_path_translation
    (sd : StructureDefinition) (r : CodeCaretValueRule) (later : list CodeCaretValueRule)
    (codeSystem : CodeSystem) (st : State) :
  let forest := orEmpty (csConcept codeSystem) in
  let started :=
    mkState (world st) (codeSystems st) (log st)
            (trace st ++ [ApplyRule (RCodeCaretValue r)]) in
  (forall found step rest positions,
      codePath r = (found ++ step :: rest)%list ->
      Leads forest found positions ->
      (forall k, In k (levelAt positions forest) -> code k <> step) ->
      let unresolved :=
        CannotResolvePathError (join " " (map (fun c => "#" ++ c) (codePath r))) in
      let skipped :=
        mkState (world st) (codeSystems st)
                (log st ++ [RuleFailure unresolved (codeCaretSource r)])
                (trace st ++ [ApplyRule (RCodeCaretValue r)]) in
      findConceptPath codeSystem (codePath r) = inl unresolved
      /\ applyCodeCaretRule sd r codeSystem st = (Returned codeSystem, skipped)
      /\ setCodeCaretRules codeSystem sd (r :: later) st
         = setCodeCaretRules codeSystem sd later skipped)
  /\ (forall positions,
        Leads forest (codePath r) positions ->
        let conceptPath :=
          join "." (map (fun i => "concept[" ++ showNat i ++ "]") positions) in
        findConceptPath codeSystem (codePath r) = inr conceptPath
        /\ applyCodeCaretRule sd r codeSystem st
           = assign sd (conceptPath ++ "." ++ conceptCaretPath r) (conceptValue r)
                    (codeCaretSource r) codeSystem started).
Proof.
  intros forest started. split.
  - intros found step rest positions Hsplit Hleads Habsent unresolved skipped.
    assert (Hfind : findConceptPath codeSystem (codePath r) = inl unresolved).
    { unfold findConceptPath. fold forest.
      rewrite Hsplit at 1.
      now rewrite (conceptIndices_absent _ _ _ _ _ Hleads Habsent). }
    assert (Hrule : applyCodeCaretRule sd r codeSystem st = (Returned codeSystem, skipped)).
    { unfold applyCodeCaretRule. rewrite Hfind. reflexivity. }
    repeat split; auto.
    simpl setCodeCaretRules. unfold bind at 1. now rewrite Hrule.
  - intros positions Hleads conceptPath.
    assert (Hfind : findConceptPath codeSystem (codePath r) = inr conceptPath).
    { unfold findConceptPath. fold forest. now rewrite (leads_indices _ _ _ Hleads). }
    split; auto.
    unfold applyCodeCaretRule. rewrite Hfind. reflexivity.
Qed.

(** ** The trace of an export is a run of the state machine *)

Lemma runMachine_app (events later : list Event) :
  forall s,
    runMachine s (events ++ later)
    = match runMachine s events with
      | Some s' => runMachine s' later
      | None => None
      end.
Proof.
  induction events as [|ev events IH]; simpl; intros s; auto.
  destruct (transition s ev); auto.
Qed.

Lemma runMachine_cons (ev : Event) (events : list Event) (s : Stage) :
  runMachine s (ev :: events)
  = match transition s ev with
    | Some s' => runMachine s' events
    | None => None
    end.
Proof. reflexivity. Qed.

Lemma runMachine_caretEvents (rs : list CaretValueRule) :
  runMachine (At MetadataSet) (caretEvents rs) = Some (At MetadataSet).
Proof. induction rs as [|r rs IH]; simpl; auto. Qed.

Lemma runMachine_conceptEvents (rs : list ConceptRule) :
  runMachine (At CaretRulesApplied) (map (fun r => ApplyRule (RConcept r)) rs)
  = Some (At CaretRulesApplied).
Proof. induction rs as [|r rs IH]; simpl; auto. Qed.

Lemma runMachine_codeCaretEvents (rs : list CodeCaretValueRule) (events : list Event) :
  CodeCaretEvents rs events ->
  runMachine (At ConceptsBuilt) events = Some (At ConceptsBuilt).
Proof. induction 1; simpl; auto. Qed.

Lemma runMachine_exportEvents given resolved concepts rs codeCaret :
  CodeCaretEvents rs codeCaret ->
  runMachine Idle (exportEvents given resolved concepts codeCaret) = Some (At Exported).
Proof.
  intros H. unfold exportEvents. simpl.
  rewrite runMachine_app, runMachine_caretEvents. simpl.
  rewrite runMachine_app, runMachine_conceptEvents. simpl.
  rewrite runMachine_app, (runMachine_codeCaretEvents _ _ H). reflexivity.
Qed.

Lemma transition_progress (s s' : Stage) (ev : Event) :
  transition s ev = Some s' -> progress s <= progress s'.
Proof.
  destruct ev as [p|g r|path v|[c|c|c|n]]; simpl.
  - destruct s as [|[]], p; simpl; intros H; inversion H; simpl; lia.
  - destruct s as [|[]]; intros H; inversion H; lia.
  - destruct s as [|[]]; intros H; inversion H; lia.
  - destruct s as [|[]]; intros H; inversion H; lia.
  - destruct s as [|[]]; intros H; inversion H; lia.
  - destruct s as [|[]]; intros H; inversion H; lia.
  - discriminate.
Qed.

Lemma runMachine_progress (events : list Event) :
  forall s s', runMachine s events = Some s' -> progress s <= progress s'.
Proof.
  induction events as [|ev events IH]; simpl; intros s s' H.
  - inversion H. lia.
  - destruct (transition s ev) as [s1|] eqn:T; [|discriminate].
    apply transition_progress in T. apply IH in H. lia.
Qed.

Lemma transition_apply (s s' : Stage) (r : Rule) :
  transition s (ApplyRule r) = Some s' -> s' = s /\ progress s = rank r + 2.
Proof.
  destruct r as [c|c|c|n]; simpl; destruct s as [|[]]; intros H; inversion H; auto.
Qed.

(** In a run of the machine, a rule of a later kind is never applied before
    a rule of an earlier kind. *)
Lemma runMachine_order (events : list Event) (s s' : Stage) :
  runMachine s events = Some s' ->
  forall before r between r' after,
    events = (before ++ ApplyRule r :: between ++ ApplyRule r' :: after)%list ->
    rank r <= rank r'.
Proof.
  intros Hrun before r between r' after ->.
  rewrite runMachine_app in Hrun.
  destruct (runMachine s before) as [s1|]; [|discriminate].
  rewrite runMachine_cons in Hrun.
  destruct (transition s1 (ApplyRule r)) as [s2|] eqn:T1; [|discriminate].
  apply transition_apply in T1. destruct T1 as (-> & P1).
  rewrite runMachine_app in Hrun.
  destruct (runMachine s1 between) as [s3|] eqn:B; [|discriminate].
  apply runMachine_progress in B. rewrite runMachine_cons in Hrun.
  destruct (transition s3 (ApplyRule r')) as [s4|] eqn:T2; [|discriminate].
  apply transition_apply in T2. destruct T2 as (-> & P2). lia.
Qed.

Lemma applied_app (events later : list Event) :
  applied (events ++ later) = (applied events ++ applied later)%list.
Proof. apply flat_map_app. Qed.

Lemma applied_caretEvents (rs : list CaretValueRule) :
  applied (caretEvents rs) = map RCaretValue rs.
Proof. induction rs as [|r rs IH]; simpl; auto. f_equal. exact IH. Qed.

Lemma applied_conceptEvents (rs : list ConceptRule) :
  applied (map (fun r => ApplyRule (RConcept r)) rs) = map RConcept rs.
Proof. induction rs as [|r rs IH]; simpl; auto. f_equal. exact IH. Qed.

Lemma applied_codeCaretEvents (rs : list CodeCaretValueRule) (events : list Event) :
  CodeCaretEvents rs events -> applied events = map RCodeCaretValue rs.
Proof. induction 1; simpl in *; congruence. Qed.

Lemma applied_exportEvents given resolved concepts rs codeCaret :
  CodeCaretEvents rs codeCaret ->
  applied (exportEvents given resolved concepts codeCaret)
  = (map RCaretValue resolved ++ map RConcept concepts ++ map RCodeCaretValue rs)%list.
Proof.
  intros H. unfold exportEvents.
  rewrite !applied_app, applied_caretEvents, applied_conceptEvents,
    (applied_codeCaretEvents _ _ H).
  simpl. now rewrite app_nil_r.
Qed.

(** C8.  The events of the export of an entity are a run of the state
    machine Init, MetadataSet, CaretRulesApplied, ConceptsBuilt,
    ConceptCaretRulesApplied, CountReconciled, Exported, which ends in
    Exported when a document is returned.  So no concept rule is applied
    before a caret rule of the document root, and no code caret rule before
    a concept rule; and an export that returns a document has applied all the
    caret rules (as soft indexing left them), then all the concept rules,
    then all the code caret rules of the entity, each in source order. *)
Theorem export_follows_the_state_machine (fshDefinition : FshCodeSystem) (st : State) :
  exists events stage,
    trace (snd (exportCodeSystem tank fshDefinition st)) = (trace st ++ events)%list
    /\ runMachine Idle events = Some stage
    /\ (forall before r between r' after,
          events = (before ++ ApplyRule r :: between ++ ApplyRule r' :: after)%list ->
          rank r <= rank r')
    /\ (forall d,
          fst (exportCodeSystem tank fshDefinition st) = Returned (Some d) ->
          stage = At Exported
          /\ exists expanded resolved,
               (exists w, expanded = fst (applyInsertRules fshDefinition tank w))
               /\ (exists w, resolved
                             = fst (resolveSoftIndexing (caretValueRules expanded) w))
               /\ applied events
                  = (map RCaretValue resolved
                     ++ map RConcept (conceptRules expanded)
                     ++ map RCodeCaretValue (codeCaretValueRules expanded))%list).
Proof.
  pose proof (exportCodeSystem_outcome fshDefinition st) as O. simpl in O.
  destruct (exportCodeSystem tank fshDefinition st) as [[[d|]|err] st'].
  - destruct O as (_ & expanded & resolved & said & d1 & d3 & cc & d4
                   & Hexp & Hres & _ & _ & Htrace & _ & _ & Hcc & _).
    exists (exportEvents (caretValueRules expanded) resolved (conceptRules expanded) cc),
      (At Exported).
    pose proof (runMachine_exportEvents (caretValueRules expanded) resolved
                  (conceptRules expanded) _ _ Hcc) as Hrun.
    split; [exact Htrace|]. split; [exact Hrun|]. split.
    + eapply runMachine_order; eauto.
    + intros d0 _. split; [reflexivity|].
      exists expanded, resolved. split; [exact Hexp|]. split; [exact Hres|].
      apply applied_exportEvents. exact Hcc.
  - destruct O as (_ & ->). exists [], Idle.
    split; [simpl; now rewrite app_nil_r|]. split; [reflexivity|]. split.
    + intros before r between r' after H. destruct before; discriminate.
    + intros d0 H. discriminate.
  - destruct O as (_ & _ & _ & Htrace & _).
    exists [Reached Init; Reached MetadataSet], (At MetadataSet).
    split; [exact Htrace|]. split; [reflexivity|]. split.
    + intros before r between r' after H.
      destruct before as [|e1 [|e2 [|e3 before]]]; inversion H.
    + intros d0 H. discriminate.
Qed.

(** ** Soft indexing comes first *)

Lemma no_resolution_caretEvents (rs : list CaretValueRule) :
  filter isResolution (caretEvents rs) = [].
Proof. induction rs as [|r rs IH]; simpl; auto. Qed.

Lemma no_resolution_conceptEvents (rs : list ConceptRule) :
  filter isResolution (map (fun r => ApplyRule (RConcept r)) rs) = [].
Proof. induction rs as [|r rs IH]; simpl; auto. Qed.

Lemma no_resolution_codeCaretEvents (rs : list CodeCaretValueRule) (events : list Event) :
  CodeCaretEvents rs events -> filter isResolution events = [].
Proof. induction 1; simpl; auto. Qed.

Lemma validation_after_three (e1 e2 e3 : Event) (rest : list Event) :
  isValidation e1 = false -> isValidation e2 = false ->
  forall before ev after,
    (e1 :: e2 :: e3 :: rest = before ++ ev :: after)%list ->
    isValidation ev = true ->
    isValidation e3 = false ->
    In e3 before.
Proof.
  intros H1 H2 before ev after Hsplit Hev H3.
  destruct before as [|b1 [|b2 [|b3 before]]]; inversion Hsplit; subst;
    try congruence.
  simpl. auto.
Qed.

(** X17.  In the export of an entity, [resolveSoftIndexing] is called once,
    on the caret value rules of the entity in source order, and before
    anything is validated at a path: every validation of the export comes
    after it.  The caret value rules are then applied as that call left
    them, each validated at the caret path it now has. *)
Theorem soft_indexes_of_caret_rules_are_resolved_first
    (fshDefinition : FshCodeSystem) (st : State) :
  exists events,
    trace (snd (exportCodeSystem tank fshDefinition st)) = (trace st ++ events)%list
    /\ (forall before ev after,
          events = (before ++ ev :: after)%list ->
          isValidation ev = true ->
          exists given resolved, In (SoftIndexesResolved given resolved) before)
    /\ (forall d,
          fst (exportCodeSystem tank fshDefinition st) = Returned (Some d) ->
          exists expanded resolved later,
            (exists w, expanded = fst (applyInsertRules fshDefinition tank w))
            /\ (exists w, resolved
                          = fst (resolveSoftIndexing (caretValueRules expanded) w))
            /\ events
               = ([Reached Init; Reached MetadataSet;
                   SoftIndexesResolved (caretValueRules expanded) resolved]
                  ++ caretEvents resolved
                  ++ Reached CaretRulesApplied :: later)%list
            /\ singlePrePass (rootCaretPaths expanded) events).
Proof.
  pose proof (exportCodeSystem_outcome fshDefinition st) as O. simpl in O.
  destruct (exportCodeSystem tank fshDefinition st) as [[[d|]|err] st'].
  - destruct O as (_ & expanded & resolved & said & d1 & d3 & cc & d4
                   & Hexp & Hres & _ & _ & Htrace & _ & _ & Hcc & _).
    exists (exportEvents (caretValueRules expanded) resolved (conceptRules expanded) cc).
    split; [exact Htrace|]. split.
    + intros before ev after Hsplit Hev.
      exists (caretValueRules expanded), resolved.
      unfold exportEvents in Hsplit. simpl in Hsplit.
      exact (validation_after_three (Reached Init) (Reached MetadataSet)
               (SoftIndexesResolved (caretValueRules expanded) resolved) _
               eq_refl eq_refl _ _ _ Hsplit Hev eq_refl).
    + intros d0 _.
      exists expanded, resolved. eexists.
      split; [exact Hexp|]. split; [exact Hres|]. split.
      * unfold exportEvents. simpl. reflexivity.
      * exists [Reached Init; Reached MetadataSet], (caretValueRules expanded), resolved.
        eexists. split; [unfold exportEvents; simpl; reflexivity|].
        repeat split.
        rewrite filter_app, no_resolution_caretEvents. simpl.
        rewrite filter_app, no_resolution_conceptEvents. simpl.
        rewrite filter_app, (no_resolution_codeCaretEvents _ _ Hcc).
        reflexivity.
  - destruct O as (_ & ->). exists [].
    split; [simpl; now rewrite app_nil_r|]. split.
    + intros before ev after H. destruct before; discriminate.
    + intros d0 H. discriminate.
  - destruct O as (_ & _ & _ & Htrace & _).
    exists [Reached Init; Reached MetadataSet].
    split; [exact Htrace|]. split.
    + intros before ev after H Hev.
      destruct before as [|e1 [|e2 [|e3 before]]]; inversion H; subst; discriminate.
    + intros d0 H. discriminate.
Qed.

(** ** Where errors stop *)














End ExporterProperties.

(** ** The Extension entity *)

Section ExtensionProperties.
Variable SdRule : Type.

Lemma assignTo_elsewhere (e : Extension.t SdRule) (a : Extension.Assignment SdRule) :
  (Extension.target SdRule a <> Extension.FId ->
   Extension.id SdRule (Extension.assignTo SdRule e a) = Extension.id SdRule e)
  /\ (Extension.target SdRule a <> Extension.FParent ->
      Extension.parent SdRule (Extension.assignTo SdRule e a)
      = Extension.parent SdRule e)
  /\ (Extension.target SdRule a <> Extension.FMixins ->
      Extension.mixins SdRule (Extension.assignTo SdRule e a)
      = Extension.mixins SdRule e)
  /\ (Extension.target SdRule a <> Extension.FRules ->
      Extension.rules SdRule (Extension.assignTo SdRule e a)
      = Extension.rules SdRule e).
Proof. destruct a; simpl; repeat split; congruence. Qed.

Lemma assignAll_elsewhere (writes : list (Extension.Assignment SdRule)) :
  forall e : Extension.t SdRule,
    (Forall (fun a => Extension.target SdRule a <> Extension.FId) writes ->
     Extension.id SdRule (Extension.assignAll SdRule e writes) = Extension.id SdRule e)
    /\ (Forall (fun a => Extension.target SdRule a <> Extension.FParent) writes ->
        Extension.parent SdRule (Extension.assignAll SdRule e writes)
        = Extension.parent SdRule e)
    /\ (Forall (fun a => Extension.target SdRule a <> Extension.FMixins) writes ->
        Extension.mixins SdRule (Extension.assignAll SdRule e writes)
        = Extension.mixins SdRule e)
    /\ (Forall (fun a => Extension.target SdRule a <> Extension.FRules) writes ->
        Extension.rules SdRule (Extension.assignAll SdRule e writes)
        = Extension.rules SdRule e).
Proof.
  induction writes as [|a writes IH]; intros e.
  - simpl. auto.
  - destruct (IH (Extension.assignTo SdRule e a)) as (I1 & I2 & I3 & I4).
    destruct (assignTo_elsewhere e a) as (A1 & A2 & A3 & A4).
    unfold Extension.assignAll in *. simpl.
    repeat split; intros H; inversion H; subst.
    + rewrite I1, A1; auto.
    + rewrite I2, A2; auto.
    + rewrite I3, A3; auto.
    + rewrite I4, A4; auto.
Qed.

(** C10.  [new Extension(name)] has the name it is given, this name as id,
    'Extension' as parent, no title and no description, and empty lists of
    mixins and rules; each of these values stays until an assignment to that
    very field. *)
Theorem extension_defaults (n : string) :
  let e := Extension.constructor SdRule n in
  Extension.name SdRule e = n
  /\ Extension.id SdRule e = n
  /\ Extension.parent SdRule e = "Extension"
  /\ Extension.title SdRule e = None
  /\ Extension.description SdRule e = None
  /\ Extension.mixins SdRule e = Some []
  /\ Extension.rules SdRule e = []
  /\ forall writes,
       (Forall (fun a => Extension.target SdRule a <> Extension.FId) writes ->
        Extension.id SdRule (Extension.assignAll SdRule e writes) = n)
       /\ (Forall (fun a => Extension.target SdRule a <> Extension.FParent) writes ->
           Extension.parent SdRule (Extension.assignAll SdRule e writes) = "Extension")
       /\ (Forall (fun a => Extension.target SdRule a <> Extension.FMixins) writes ->
           Extension.mixins SdRule (Extension.assignAll SdRule e writes) = Some [])
       /\ (Forall (fun a => Extension.target SdRule a <> Extension.FRules) writes ->
           Extension.rules SdRule (Extension.assignAll SdRule e writes) = []).
Proof.
  intros e. repeat split; try reflexivity;
    destruct (assignAll_elsewhere writes e) as (I1 & I2 & I3 & I4); auto.
Qed.

End ExtensionProperties.

(** * The properties on the examples *)

Lemma count_is_reconciled_when_complete_witness :
  (csContent (zooWith "fragment" (Some 5%Z)) <> Some "complete"
   /\ updateCount (zooWith "fragment" (Some 5%Z)) countedZoo (startWith [])
      = (Returned (zooWith "fragment" (Some 5%Z)), startWith []))
  /\ (0 < List.length (allConcepts (orEmpty (csConcept (zooWith "complete" None))))
      /\ updateCount (zooWith "complete" None) zoo (startWith [])
         = (Returned (zooWith "complete" (Some 3%Z)), startWith []))
  /\ (5%Z <> Z.of_nat
               (List.length
                  (allConcepts (orEmpty (csConcept (zooWith "complete" (Some 5%Z))))))
      /\ updateCount (zooWith "complete" (Some 5%Z)) countedZoo (startWith [])
         = (Returned (zooWith "complete" (Some 5%Z)),
            mkState [] [] [CountMismatch (Some 5%Z) (Some 3) (here 7)] [])).
Proof.
  split; [|split].
  - assert (H : csContent (zooWith "fragment" (Some 5%Z)) <> Some "complete")
      by discriminate.
    split; [exact H|].
    destruct (count_is_reconciled_when_complete
                (zooWith "fragment" (Some 5%Z)) countedZoo (startWith []))
      as (H1 & _ & _).
    exact (H1 H).
  - assert (H : 0 < List.length
                      (allConcepts (orEmpty (csConcept (zooWith "complete" None)))))
      by (vm_compute; lia).
    split; [exact H|].
    destruct (count_is_reconciled_when_complete
                (zooWith "complete" None) zoo (startWith []))
      as (_ & H2 & _).
    exact (H2 eq_refl eq_refl H).
  - assert (H : 5%Z <> Z.of_nat
                         (List.length
                            (allConcepts
                               (orEmpty (csConcept (zooWith "complete" (Some 5%Z)))))))
      by (vm_compute; discriminate).
    split; [exact H|].
    destruct (count_is_reconciled_when_complete
                (zooWith "complete" (Some 5%Z)) countedZoo (startWith []))
      as (_ & _ & H3).
    exact (H3 5%Z eq_refl eq_refl H).
Defined.

Lemma missing_ancestor_skips_the_rule_only_witness :
  In "horse" (hierarchy foal)
  /\ (forall k, In k (allConcepts (forestAfter [bear] [])) -> code k <> "horse")
  /\ fst (setConcepts (D := plainDomain) emptyCodeSystem [bear; foal; zebra]
            (startWith []))
     = Returned (withConcepts emptyCodeSystem
                   (Some [newConcept bear; newConcept zebra]))
  /\ log (snd (setConcepts (D := plainDomain) emptyCodeSystem [bear; foal; zebra]
                 (startWith [])))
     = [MissingAncestor "horse" "foal" (here 6)].
Proof.
  assert (H1 : In "horse" (hierarchy foal)) by (simpl; auto).
  assert (H2 : forall k, In k (allConcepts (forestAfter [bear] [])) -> code k <> "horse").
  { intros k [<-|[]]. discriminate. }
  split; [exact H1|]. split; [exact H2|].
  destruct (missing_ancestor_skips_the_rule_only (D := plainDomain)
              emptyCodeSystem [bear] [zebra] foal "horse" (startWith []) H1 H2)
    as (missing & found & rest & position & Hsplit & _ & _ & _ & _ & Hrun & _).
  assert (Hmissing : missing = "horse").
  { destruct found as [|x found]; simpl in Hsplit.
    - inversion Hsplit. reflexivity.
    - inversion Hsplit. destruct found; discriminate. }
  subst missing. simpl app in Hrun. rewrite Hrun. split; reflexivity.
Defined.

Lemma satisfied_rules_are_appended_in_source_order_witness :
  [bear; cub; zebra] <> []
  /\ allSatisfied [bear; cub; zebra] [] = true
  /\ exists forest,
       fst (setConcepts (D := plainDomain) emptyCodeSystem [bear; cub; zebra]
              (startWith []))
       = Returned (withConcepts emptyCodeSystem (Some forest))
       /\ countConcepts (Some forest) = 3
       /\ map code (levelAt [] forest) = ["bear"; "zebra"]
       /\ map code (levelAt [0] forest) = ["cub"].
Proof.
  assert (H1 : [bear; cub; zebra] <> []) by discriminate.
  assert (H2 : allSatisfied [bear; cub; zebra] [] = true) by reflexivity.
  split; [exact H1|]. split; [exact H2|].
  destruct (satisfied_rules_are_appended_in_source_order (D := plainDomain)
              emptyCodeSystem [bear; cub; zebra] (startWith []) H1 H2)
    as (forest & Hrun & Hforest & Hcount & _ & _).
  exists forest. split; [now rewrite Hrun|]. split; [exact Hcount|].
  subst forest. split; reflexivity.
Defined.

Lemma same_name_is_exported_once_witness :
  name zooAgain = name zoo
  /\ exportCodeSystem plainTank zoo (startWith []) = (Returned (Some zooDocument), zooState)
  /\ csName zooDocument = Some (name zoo)
  /\ In zooDocument (codeSystems zooState)
  /\ exportCodeSystem plainTank zooAgain zooState = (Returned None, zooState)
  /\ exportEach plainTank [zoo; zooAgain] (startWith []) = (Returned tt, zooState).
Proof.
  assert (H1 : name zooAgain = name zoo) by reflexivity.
  assert (H2 : exportCodeSystem plainTank zoo (startWith [])
               = (Returned (Some zooDocument), zooState)) by reflexivity.
  assert (H3 : csName zooDocument = Some (name zoo)) by reflexivity.
  split; [exact H1|]. split; [exact H2|]. split; [exact H3|].
  apply (same_name_is_exported_once plainTank zoo zooAgain
           (startWith []) zooState zooState zooDocument H1 H2 H3).
  exists []. now rewrite app_nil_r.
Defined.

Lemma same_id_is_reported_once_witness :
  exportCodeSystem plainTank zoo (startWith []) = (Returned (Some zooDocument), zooState)
  /\ exportCodeSystem plainTank otherZoo zooState
     = (Returned (Some otherZooDocument), otherZooState)
  /\ csId otherZooDocument = csId zooDocument
  /\ In zooDocument (codeSystems otherZooState)
  /\ In otherZooDocument (codeSystems otherZooState)
  /\ exists diags,
       log otherZooState = (log zooState ++ diags)%list
       /\ filter isDuplicateId diags = [DuplicateId (Some "zoo") (here 30)].
Proof.
  assert (H1 : exportCodeSystem plainTank zoo (startWith [])
               = (Returned (Some zooDocument), zooState)) by reflexivity.
  assert (H2 : exportCodeSystem plainTank otherZoo zooState
               = (Returned (Some otherZooDocument), otherZooState)) by reflexivity.
  assert (H3 : csId otherZooDocument = csId zooDocument) by reflexivity.
  assert (H4 : exists later, codeSystems zooState = (codeSystems zooState ++ later)%list).
  { exists []. now rewrite app_nil_r. }
  split; [exact H1|]. split; [exact H2|]. split; [exact H3|].
  exact (same_id_is_reported_once plainTank zoo otherZoo
           (startWith []) zooState zooState otherZooState
           zooDocument otherZooDocument H1 H4 H2 H3).
Defined.

Lemma code_path_translation_witness :
  (codePath foalDesignation = (["zebra"] ++ "foal" :: [])%list
   /\ Leads (orEmpty (csConcept zooDocument)) ["zebra"] [1]
   /\ (forall k, In k (levelAt [1] (orEmpty (csConcept zooDocument))) -> code k <> "foal")
   /\ findConceptPath zooDocument (codePath foalDesignation)
      = inl (CannotResolvePathError "#zebra #foal")
   /\ applyCodeCaretRule plainDefinition foalDesignation zooDocument zooState
      = (Returned zooDocument,
         mkState (world zooState) (codeSystems zooState)
                 (log zooState
                  ++ [RuleFailure (CannotResolvePathError "#zebra #foal") (here 9)])
                 (trace zooState ++ [ApplyRule (RCodeCaretValue foalDesignation)])))
  /\ (Leads (orEmpty (csConcept zooDocument)) (codePath cubDesignation) [0; 0]
      /\ findConceptPath zooDocument (codePath cubDesignation)
         = inr "concept[0].concept[0]").
Proof.
  split.
  - assert (H1 : codePath foalDesignation = (["zebra"] ++ "foal" :: [])%list)
      by reflexivity.
    assert (H2 : Leads (orEmpty (csConcept zooDocument)) ["zebra"] [1])
      by (apply indices_leads; reflexivity).
    assert (H3 : forall k, In k (levelAt [1] (orEmpty (csConcept zooDocument))) ->
                           code k <> "foal")
      by (intros k []).
    split; [exact H1|]. split; [exact H2|]. split; [exact H3|].
    destruct (code_path_translation plainDefinition foalDesignation [] zooDocument zooState)
      as (Hfail & _).
    destruct (Hfail ["zebra"] "foal" [] [1] H1 H2 H3) as (Hfind & Hrule & _).
    split; [exact Hfind|exact Hrule].
  - assert (H : Leads (orEmpty (csConcept zooDocument)) (codePath cubDesignation) [0; 0])
      by (apply indices_leads; reflexivity).
    split; [exact H|].
    destruct (code_path_translation plainDefinition cubDesignation [] zooDocument zooState)
      as (_ & Hfound).
    exact (proj1 (Hfound [0; 0] H)).
Defined.

Lemma soft_indexes_of_caret_rules_are_resolved_first_witness :
  fst (exportCodeSystem plainTank annotatedZoo (startWith []))
  = Returned (Some (match fst (exportCodeSystem plainTank annotatedZoo (startWith []))
                    with
                    | Returned (Some d) => d
                    | _ => emptyCodeSystem
                    end))
  /\ singlePrePass (rootCaretPaths (rules annotatedZoo))
       (trace (snd (exportCodeSystem plainTank annotatedZoo (startWith [])))).
Proof.
  assert (H : fst (exportCodeSystem plainTank annotatedZoo (startWith []))
              = Returned (Some (match fst (exportCodeSystem plainTank annotatedZoo
                                             (startWith []))
                                with
                                | Returned (Some d) => d
                                | _ => emptyCodeSystem
                                end))) by reflexivity.
  split; [exact H|].
  destruct (soft_indexes_of_caret_rules_are_resolved_first plainTank annotatedZoo
              (startWith []))
    as (events & Htrace & _ & Hok).
  destruct (Hok _ H) as (expanded & resolved & later & (w & Hexp) & _ & _ & Hsingle).
  simpl in Hexp. subst expanded.
  rewrite Htrace. exact Hsingle.
Defined.

Lemma export_follows_the_state_machine_witness :
  exists events,
    trace (snd (exportCodeSystem plainTank annotatedZoo (startWith []))) = events
    /\ runMachine Idle events = Some (At Exported)
    /\ applied events
       = [RCaretValue wrongCount; RCaretValue complete;
          RConcept bear; RConcept cub;
          RCodeCaretValue cubDesignation; RCodeCaretValue foalDesignation].
Proof.
  destruct (export_follows_the_state_machine plainTank annotatedZoo (startWith []))
    as (events & stage & Htrace & Hrun & _ & Hok).
  exists events. split; [exact Htrace|].
  destruct (Hok _ eq_refl) as (-> & expanded & resolved & (w & Hexp) & (w' & Hres) & Happlied).
  split; [exact Hrun|].
  simpl in Hexp. subst expanded. simpl in Hres. subst resolved.
  exact Happlied.
Defined.


Lemma extension_defaults_witness :
  Forall (fun a => Extension.target unit a <> Extension.FId)
         [Extension.SetTitle unit (Some "A title"); Extension.SetParent unit "Observation"]
  /\ Extension.id unit
       (Extension.assignAll unit (Extension.constructor unit "MyExtension")
          [Extension.SetTitle unit (Some "A title");
           Extension.SetParent unit "Observation"])
     = "MyExtension".
Proof.
  assert (H : Forall (fun a => Extension.target unit a <> Extension.FId)
                [Extension.SetTitle unit (Some "A title");
                 Extension.SetParent unit "Observation"])
    by (repeat constructor; discriminate).
  split; [exact H|].
  destruct (extension_defaults unit "MyExtension")
    as (_ & _ & _ & _ & _ & _ & _ & Hkeeps).
  exact (proj1 (Hkeeps _) H).
Defined.

(** C4 as it is stated does not hold: [renamedZoo] and [zooAgain] have the
    same name, and a caret rule of [renamedZoo] gives its document another
    name.  Exported one after the other, both are exported: the export of
    [zooAgain] does not return without a document, and the package has the
    two documents. *)
Lemma same_name_is_exported_twice_after_a_rename :
  name zooAgain = name renamedZoo
  /\ exportCodeSystem plainTank renamedZoo (startWith [])
     = (Returned (Some renamedZooDocument), renamedZooState)
  /\ exportCodeSystem plainTank zooAgain renamedZooState
     <> (Returned None, renamedZooState)
  /\ fst (exportCodeSystem plainTank zooAgain renamedZooState)
     = Returned (Some zooAgainDocument)
  /\ codeSystems (snd (exportCodeSystem plainTank zooAgain renamedZooState))
     = [renamedZooDocument; zooAgainDocument]
  /\ codeSystems (snd (exportEach plainTank [renamedZoo; zooAgain] (startWith [])))
     = [renamedZooDocument; zooAgainDocument].
Proof.
  split; [reflexivity|]. split; [reflexivity|]. split.
  - intros H. vm_compute in H. discriminate H.
  - split; [reflexivity|]. split; reflexivity.
Qed.

(** C5 as it is stated does not hold: [zoo] and [movedZoo] have different
    names and the same id, and a caret rule of [movedZoo] gives its document
    another id.  Exported one after the other, both documents are in the
    package and no duplicate-id diagnostic is logged: the export of
    [movedZoo] logs nothing at all. *)
Lemma same_id_is_not_reported_after_a_caret_rule :
  name movedZoo <> name zoo
  /\ id movedZoo = id zoo
  /\ exportCodeSystem plainTank zoo (startWith []) = (Returned (Some zooDocument), zooState)
  /\ exportCodeSystem plainTank movedZoo zooState
     = (Returned (Some movedZooDocument), movedZooState)
  /\ codeSystems movedZooState = [zooDocument; movedZooDocument]
  /\ log movedZooState = log zooState
  /\ List.length (filter isDuplicateId (log movedZooState)) <> 1.
Proof.
  split; [discriminate|]. split; [reflexivity|]. split; [reflexivity|].
  split; [reflexivity|]. split; [reflexivity|]. split; [reflexivity|].
  vm_compute. discriminate.
Qed.

(** C7.  The export of [annotatedZoo], whose code caret value rule
    [cubDesignation] has the soft index [+] in its caret path: the only call
    of [resolveSoftIndexing] is given the two caret value rules of the
    entity, so that it is no pass over all the rules that carry a caret path,
    and [setCodeCaretRules] has [validateValueAtPath] called at the caret
    path as it is written, with the soft index in it. *)
Lemma soft_indexes_of_code_caret_rules_are_not_resolved :
  ~ singlePrePass (caretPaths (rules annotatedZoo))
      (trace (snd (exportCodeSystem plainTank annotatedZoo (startWith []))))
  /\ In (CallValidateValueAtPath "concept[0].concept[0].designation[+].value"
           (Text "ourson"))
        (trace (snd (exportCodeSystem plainTank annotatedZoo (startWith []))))
  /\ filter isResolution
       (trace (snd (exportCodeSystem plainTank annotatedZoo (startWith []))))
     = [SoftIndexesResolved [wrongCount; complete] [wrongCount; complete]].
Proof.
  split; [|split; [|reflexivity]].
  - intros (before & given & resolved & after & Hsplit & Hcovered & _).
    assert (Hin : In (SoftIndexesResolved given resolved)
                     (trace (snd (exportCodeSystem plainTank annotatedZoo
                                    (startWith []))))).
    { rewrite Hsplit. apply in_elt. }
    vm_compute in Hin.
    repeat (destruct Hin as [Hin|Hin]; [try discriminate Hin|]); [|contradiction].
    inversion Hin; subst. discriminate Hcovered.
  - vm_compute. tauto.
Qed.

(** * Further properties of the exporter *)

(** ** Counting *)

(** X1.  [countConcepts] counts every concept of the forest once: it is the
    number of concepts of the flattened forest, a root counts for itself and
    its descendants, the count of two forests side by side is the sum of
    their counts, and an absent [concept] array counts as an empty one. *)
Theorem countConcepts_counts_every_concept_once
    (c : CodeSystemConcept) (forest other : list CodeSystemConcept) :
  countConcepts (Some forest) = List.length (allConcepts forest)
  /\ countConcepts (Some (c :: forest))
     = 1 + countConcepts (concept c) + countConcepts (Some forest)
  /\ countConcepts (Some (forest ++ other)%list)
     = countConcepts (Some forest) + countConcepts (Some other)
  /\ countConcepts (Some (map settled forest)) = countConcepts (Some forest)
  /\ countConcepts None = countConcepts (Some []).
Proof.
  split; [apply countConcepts_allConcepts|].
  split; [|split; [|split; [apply countConcepts_settled|reflexivity]]].
  - rewrite !countConcepts_sum. simpl. rewrite (countBelow_concept c). lia.
  - rewrite !countConcepts_sum, length_app, map_app, list_sum_app. lia.
Qed.

(** ** Arrays, again *)

Lemma find_app {A : Type} (p : A -> bool) (l l' : list A) i x :
  find p l = Some (i, x) -> find p (l ++ l') = Some (i, x).
Proof.
  intros H. apply find_some in H. destruct H as (Hnth & Hx & Hfirst).
  assert (Hi : i < List.length l) by (apply nth_error_Some; congruence).
  apply find_first; auto.
  - now rewrite nth_error_app1.
  - intros j y Hj Hy. rewrite nth_error_app1 in Hy by lia. eauto.
Qed.

Lemma find_setAt {A : Type} (p : A -> bool) (l : list A) i x x' j y :
  nth_error l i = Some x ->
  p x' = p x ->
  find p l = Some (j, y) ->
  find p (setAt i x' l) = Some (j, if Nat.eq_dec i j then x' else y).
Proof.
  intros Hi Hp H. apply find_some in H. destruct H as (Hnth & Hy & Hfirst).
  apply find_first.
  - destruct (Nat.eq_dec i j) as [->|Hij].
    + eapply nth_error_setAt_same; eauto.
    + now rewrite nth_error_setAt_other.
  - destruct (Nat.eq_dec i j) as [->|Hij]; auto.
    rewrite Hp. congruence.
  - intros k z Hk Hz. destruct (Nat.eq_dec i k) as [->|Hik].
    + erewrite nth_error_setAt_same in Hz by eauto. inversion Hz; subst.
      rewrite Hp. eauto.
    + rewrite nth_error_setAt_other in Hz by assumption. eauto.
Qed.

Lemma find_exists {A : Type} (p : A -> bool) (l : list A) x :
  In x l -> p x = true -> exists i y, find p l = Some (i, y).
Proof.
  intros Hin Hx. destruct (find p l) as [[i y]|] eqn:F; eauto.
  rewrite find_none in F. rewrite (F x Hin) in Hx. discriminate.
Qed.

(** ** Positions in the forest *)

(** One concept rule, found or not, keeps the positions of every code path
    that was resolvable before it. *)
Lemma walk_keeps_positions (ancestors : list string) (fresh : CodeSystemConcept) :
  forall container path positions,
    conceptIndices container path = Some positions ->
    conceptIndices (fst (walkAndPush ancestors fresh container)) path = Some positions.
Proof.
  induction ancestors as [|a rest IH]; intros container path positions H.
  - simpl. destruct path as [|step path]; simpl in *; auto.
    destruct (find (hasCode step) container) as [[j y]|] eqn:F; [|discriminate].
    now rewrite (find_app _ _ [fresh] _ _ F).
  - simpl. destruct (find (hasCode a) container) as [[i x]|] eqn:F; auto.
    apply find_some in F. destruct F as (Hnth & _).
    specialize (IH (orEmpty (concept x))).
    destruct (walkAndPush rest fresh (orEmpty (concept x))) as [below missing].
    simpl in *. destruct path as [|step path]; simpl in *; auto.
    destruct (find (hasCode step) container) as [[j y]|] eqn:G; [|discriminate].
    rewrite (find_setAt (hasCode step) container i x (withConcept x below) j y
               Hnth eq_refl G).
    destruct (Nat.eq_dec i j) as [->|Hij]; auto.
    apply find_some in G. destruct G as (Hj & _).
    assert (y = x) by congruence. subst y. simpl.
    destruct (conceptIndices (orEmpty (concept x)) path) as [p|] eqn:E; [|discriminate].
    now rewrite (IH path p E).
Qed.

Lemma forestAfter_keeps_positions (rs : list ConceptRule) :
  forall forest path positions,
    conceptIndices forest path = Some positions ->
    conceptIndices (forestAfter rs forest) path = Some positions.
Proof.
  induction rs as [|r rs IH]; intros forest path positions H; auto.
  rewrite forestAfter_cons. apply IH. unfold forestAfterRule.
  now apply walk_keeps_positions.
Qed.

(** A concept rule whose ancestors are found can be addressed, once it is
    applied, by its ancestor codes followed by its code. *)
Lemma walk_found_addressable (ancestors : list string) (fresh : CodeSystemConcept) :
  forall container position,
    conceptIndices container ancestors = Some position ->
    exists j,
      conceptIndices (fst (walkAndPush ancestors fresh container))
                     (ancestors ++ [code fresh])%list
      = Some (position ++ [j])%list.
Proof.
  induction ancestors as [|a rest IH]; intros container position H.
  - inversion H; subst. simpl.
    destruct (find_exists (hasCode (code fresh)) (container ++ [fresh])%list fresh)
      as (j & y & F).
    + apply in_or_app. right. simpl. auto.
    + unfold hasCode. apply String.eqb_refl.
    + exists j. now rewrite F.
  - simpl in H |- *.
    destruct (find (hasCode a) container) as [[i x]|] eqn:F; [|discriminate].
    destruct (conceptIndices (orEmpty (concept x)) rest) as [p|] eqn:E; [|discriminate].
    inversion H; subst position. clear H.
    destruct (IH _ _ E) as (j & Hj).
    apply find_some in F as Hx. destruct Hx as (Hnth & _).
    destruct (walkAndPush rest fresh (orEmpty (concept x))) as [below missing].
    simpl in *.
    rewrite (find_setAt (hasCode a) container i x (withConcept x below) i x
               Hnth eq_refl F).
    destruct (Nat.eq_dec i i) as [_|Hne]; [|congruence].
    simpl. rewrite Hj. exists j. reflexivity.
Qed.

Lemma satisfied_addressable (rs : list ConceptRule) :
  forall forest r,
    In r (satisfiedRules rs forest) ->
    exists position j,
      conceptIndices (forestAfter rs forest) (hierarchy r ++ [ruleCode r])%list
      = Some (position ++ [j])%list
      /\ List.length position = List.length (hierarchy r).
Proof.
  induction rs as [|r0 rs IH]; simpl; intros forest r Hin; [contradiction|].
  unfold located in Hin.
  destruct (conceptIndices forest (hierarchy r0)) as [p|] eqn:E.
  - destruct Hin as [<-|Hin]; [|now apply IH].
    destruct (walk_found_addressable _ (newConcept r0) _ _ E) as (j & Hj).
    exists p, j. split.
    + apply forestAfter_keeps_positions. exact Hj.
    + clear Hj. revert forest p E.
      induction (hierarchy r0) as [|a l IHl]; simpl; intros forest p E.
      * inversion E. reflexivity.
      * destruct (find (hasCode a) forest) as [[i x]|]; [|discriminate].
        destruct (conceptIndices (orEmpty (concept x)) l) as [q|] eqn:Eq;
          [|discriminate].
        inversion E. simpl. f_equal. eapply IHl; eauto.
  - now apply IH.
Qed.

(** Every ancestor the walk of a rule finds has a [concept] array after the
    rule. *)
Lemma walk_gives_arrays (found : list string) (fresh : CodeSystemConcept) :
  forall rest container position,
    found <> [] ->
    conceptIndices container found = Some position ->
    exists node,
      nodeAt position (fst (walkAndPush (found ++ rest) fresh container)) = Some node
      /\ concept node <> None.
Proof.
  induction found as [|a found IH]; intros rest container position Hne H;
    [congruence|].
  simpl in H |- *.
  destruct (find (hasCode a) container) as [[i x]|] eqn:F; [|discriminate].
  destruct (conceptIndices (orEmpty (concept x)) found) as [p|] eqn:E; [|discriminate].
  inversion H; subst position. clear H.
  apply find_some in F. destruct F as (Hnth & _).
  destruct found as [|b found].
  - simpl in E. inversion E; subst p.
    destruct (walkAndPush ([] ++ rest) fresh (orEmpty (concept x))) as [below missing].
    simpl. erewrite nth_error_setAt_same by eauto.
    exists (withConcept x below). split; [reflexivity|discriminate].
  - assert (Hb : b :: found <> []) by discriminate.
    destruct (IH rest _ _ Hb E) as (node & Hnode & Hc).
    destruct (walkAndPush ((b :: found) ++ rest) fresh (orEmpty (concept x)))
      as [below missing].
    simpl fst in *. simpl nodeAt. erewrite nth_error_setAt_same by eauto.
    destruct p as [|j p].
    + simpl in E. destruct (find (hasCode b) (orEmpty (concept x))) as [[k y]|];
        [|discriminate].
      destruct (conceptIndices (orEmpty (concept y)) found); discriminate.
    + exists node. split; auto.
Qed.

(** ** The text of a concept path *)

Lemma append_assoc (a b c : string) : ((a ++ b) ++ c = a ++ (b ++ c))%string.
Proof. induction a as [|x a IH]; simpl; [reflexivity|now rewrite IH]. Qed.

Lemma dotted_cons (i : nat) (positions : list nat) :
  dotted (i :: positions)
  = ("concept[" ++ showNat i ++ "]"
       ++ match positions with
          | [] => EmptyString
          | _ :: _ => "." ++ dotted positions
          end)%string.
Proof.
  unfold dotted, join. destruct positions as [|j positions].
  - reflexivity.
  - cbn [map String.concat]. rewrite !append_assoc. reflexivity.
Qed.

Lemma showNat_injective (a b : nat) : showNat a = showNat b -> a = b.
Proof.
  unfold showNat. intros H.
  assert (Hn : forall n, Nat.to_uint n <> Decimal.Nil).
  { intros n. rewrite <- (DecimalNat.Unsigned.of_to n) at 1.
    rewrite DecimalNat.Unsigned.to_of. apply DecimalFacts.unorm_nonnil. }
  apply DecimalNat.Unsigned.to_uint_inj.
  pose proof (NilZero.usu _ (Hn a)) as Ha.
  pose proof (NilZero.usu _ (Hn b)) as Hb.
  rewrite H in Ha. congruence.
Qed.

Lemma digits_bracketFree (d : Decimal.uint) :
  bracketFree (NilEmpty.string_of_uint d) = true.
Proof. induction d; simpl; auto. Qed.

Lemma showNat_bracketFree (n : nat) : bracketFree (showNat n) = true.
Proof.
  unfold showNat, NilZero.string_of_uint.
  destruct (Nat.to_uint n); try apply digits_bracketFree; reflexivity.
Qed.

Lemma cut_at_bracket (s : string) :
  forall t r1 r2,
    bracketFree s = true -> bracketFree t = true ->
    (s ++ String "]" r1 = t ++ String "]" r2)%string ->
    s = t /\ r1 = r2.
Proof.
  induction s as [|c s IH]; intros [|d t] r1 r2 Hs Ht H; simpl in *.
  - inversion H. auto.
  - inversion H; subst. simpl in Ht. discriminate.
  - inversion H; subst. simpl in Hs. discriminate.
  - inversion H; subst.
    apply andb_true_iff in Hs. apply andb_true_iff in Ht.
    destruct (IH t r1 r2) as (-> & ->); tauto.
Qed.

Lemma dotted_injective (p : list nat) :
  forall q, dotted p = dotted q -> p = q.
Proof.
  induction p as [|i p IH]; intros [|j q] H.
  - reflexivity.
  - rewrite dotted_cons in H. discriminate.
  - rewrite dotted_cons in H. discriminate.
  - rewrite !dotted_cons in H. simpl in H.
    inversion H as [H']. clear H.
    apply cut_at_bracket in H'; try apply showNat_bracketFree.
    destruct H' as (Hi & Hrest). apply showNat_injective in Hi. subst j.
    f_equal. destruct p as [|a p], q as [|b q]; try discriminate; auto.
    inversion Hrest. now apply IH.
Qed.

(** ** Code paths *)

Section MoreExporterProperties.
Context {D : Domain} {C : Collaborators}.
Variable tank : FSHTank.

Lemma findConceptPath_found (codeSystem : CodeSystem) (path : list string) (s : string) :
  findConceptPath codeSystem path = inr s ->
  exists positions,
    conceptIndices (orEmpty (csConcept codeSystem)) path = Some positions
    /\ s = dotted positions.
Proof.
  unfold findConceptPath.
  destruct (conceptIndices (orEmpty (csConcept codeSystem)) path) as [p|];
    intros H; inversion H. eauto.
Qed.

Lemma findConceptPath_indices (codeSystem : CodeSystem) (path : list string)
    (positions : list nat) :
  conceptIndices (orEmpty (csConcept codeSystem)) path = Some positions ->
  findConceptPath codeSystem path = inr (dotted positions).
Proof. unfold findConceptPath. now intros ->. Qed.

(** X9.  [findConceptPath] has one answer and a reason for it: the codes of a
    path lead to at most one list of positions; either they lead somewhere
    and the result is the dotted path of these positions, or there is a first
    code with no match at the level the codes before it lead to, and the
    result is the error built from the whole path. *)
Theorem code_path_resolves_or_has_a_first_missing_code
    (codeSystem : CodeSystem) (path : list string) :
  let forest := orEmpty (csConcept codeSystem) in
  (forall p q, Leads forest path p -> Leads forest path q -> p = q)
  /\ ((exists positions,
          Leads forest path positions
          /\ findConceptPath codeSystem path = inr (dotted positions))
      \/ (exists found step rest positions,
             path = (found ++ step :: rest)%list
             /\ Leads forest found positions
             /\ (forall k, In k (levelAt positions forest) -> code k <> step)
             /\ findConceptPath codeSystem path
                = inl (CannotResolvePathError
                         (join " " (map (fun c => "#" ++ c) path))))).
Proof.
  intros forest. split.
  - intros p q Hp Hq. apply leads_indices in Hp. apply leads_indices in Hq.
    congruence.
  - destruct (conceptIndices forest path) as [positions|] eqn:E.
    + left. exists positions. split.
      * now apply indices_leads.
      * now apply findConceptPath_indices.
    + right.
      destruct (walk_missing path (mkConcept EmptyString None None None) forest E)
        as (step & found & rest & positions & Hsplit & Hfound & Hnone & _).
      exists found, step, rest, positions.
      split; [exact Hsplit|]. split; [now apply indices_leads|]. split.
      * intros k Hk Hc. apply Hnone in Hk. unfold hasCode in Hk.
        apply String.eqb_neq in Hk. contradiction.
      * unfold findConceptPath. fold forest. now rewrite E.
Qed.

(** X10.  The empty code path always resolves, to the empty text, so that the rule
    is validated at a path that starts with a dot; on a code system without
    concepts every other code path is unresolvable. *)
Theorem code_paths_at_the_edges
    (sd : StructureDefinition) (r : CodeCaretValueRule)
    (codeSystem : CodeSystem) (st : State) :
  findConceptPath codeSystem [] = inr EmptyString
  /\ (codePath r = [] ->
      applyCodeCaretRule sd r codeSystem st
      = assign sd ("." ++ conceptCaretPath r) (conceptValue r) (codeCaretSource r)
               codeSystem
               (mkState (world st) (codeSystems st) (log st)
                        (trace st ++ [ApplyRule (RCodeCaretValue r)])))
  /\ (orEmpty (csConcept codeSystem) = [] ->
      forall step rest,
        findConceptPath codeSystem (step :: rest)
        = inl (CannotResolvePathError
                 (join " " (map (fun c => "#" ++ c) (step :: rest))))).
Proof.
  split; [reflexivity|]. split.
  - intros H. unfold applyCodeCaretRule. rewrite H. reflexivity.
  - intros H step rest. unfold findConceptPath. rewrite H. reflexivity.
Qed.

(** X11.  Two code paths that [findConceptPath] translates to the same text lead
    to the same positions: the text of a concept path tells the positions. *)
Theorem concept_path_text_tells_the_positions
    (codeSystem codeSystem' : CodeSystem) (path path' : list string) (s : string) :
  findConceptPath codeSystem path = inr s ->
  findConceptPath codeSystem' path' = inr s ->
  exists positions,
    Leads (orEmpty (csConcept codeSystem)) path positions
    /\ Leads (orEmpty (csConcept codeSystem')) path' positions
    /\ List.length path = List.length path'.
Proof.
  intros H H'.
  destruct (findConceptPath_found _ _ _ H) as (p & Hp & ->).
  destruct (findConceptPath_found _ _ _ H') as (q & Hq & Hs).
  apply dotted_injective in Hs. subst q.
  apply indices_leads in Hp. apply indices_leads in Hq.
  exists p. repeat split; auto.
  assert (Hlen : forall f l ps, Leads f l ps -> List.length l = List.length ps).
  { induction 1; simpl; auto. }
  rewrite (Hlen _ _ _ Hp), (Hlen _ _ _ Hq). reflexivity.
Qed.

(** ** Concept rules and code paths together *)

Lemma setConcepts_document (codeSystem : CodeSystem) (rs : list ConceptRule) st d :
  rs <> [] ->
  fst (setConcepts codeSystem rs st) = Returned d ->
  d = withConcepts codeSystem (Some (forestAfter rs [])).
Proof.
  intros Hrs H. rewrite setConcepts_runs in H by assumption.
  simpl in H. congruence.
Qed.

(** X7.  A code path that resolves once some concept rules are applied resolves
    to the same document path after any further concept rules: concepts are
    only ever appended, so positions never move. *)
Theorem concept_positions_never_move
    (codeSystem : CodeSystem) (before after : list ConceptRule) (st st' : State)
    (d d' : CodeSystem) (path : list string) (s : string) :
  before <> [] ->
  fst (setConcepts codeSystem before st) = Returned d ->
  fst (setConcepts codeSystem (before ++ after) st') = Returned d' ->
  findConceptPath d path = inr s ->
  findConceptPath d' path = inr s.
Proof.
  intros Hne Hd Hd' Hpath.
  apply setConcepts_document in Hd; auto.
  apply setConcepts_document in Hd'; [|destruct before; [congruence|discriminate]].
  subst d d'.
  destruct (findConceptPath_found _ _ _ Hpath) as (p & Hp & ->).
  apply findConceptPath_indices. simpl in *.
  rewrite forestAfter_app. now apply forestAfter_keeps_positions.
Qed.

(** X8.  Every concept rule whose ancestors were found when it was applied can
    be addressed in the resulting code system by its ancestor codes followed
    by its code: [findConceptPath] resolves that path, one level below the
    ancestors. *)
Theorem inserted_concepts_are_addressable
    (codeSystem : CodeSystem) (rs : list ConceptRule) (st : State)
    (d : CodeSystem) (r : ConceptRule) :
  In r (satisfiedRules rs []) ->
  fst (setConcepts codeSystem rs st) = Returned d ->
  exists positions,
    findConceptPath d (hierarchy r ++ [ruleCode r]) = inr (dotted positions)
    /\ List.length positions = S (List.length (hierarchy r)).
Proof.
  intros Hin Hd.
  assert (Hrs : rs <> []) by (destruct rs; [contradiction|discriminate]).
  apply setConcepts_document in Hd; auto. subst d.
  destruct (satisfied_addressable rs [] r Hin) as (p & j & Hp & Hlen).
  exists (p ++ [j])%list. split.
  - now apply findConceptPath_indices.
  - rewrite length_app, Hlen. simpl. lia.
Qed.

(** X6.  A concept rule gives a [concept] array to every ancestor it finds, also
    when a later ancestor is missing and the rule is dropped. *)
Theorem found_ancestors_get_a_concept_array
    (r : ConceptRule) (forest : list CodeSystemConcept)
    (found rest : list string) (position : list nat) (st : State) :
  hierarchy r = (found ++ rest)%list ->
  found <> [] ->
  Leads forest found position ->
  exists forest' node,
    fst (addConcept r forest st) = Returned forest'
    /\ nodeAt position forest' = Some node
    /\ concept node <> None.
Proof.
  intros Hsplit Hne Hleads. apply leads_indices in Hleads.
  destruct (walk_gives_arrays found (newConcept r) rest forest position Hne Hleads)
    as (node & Hnode & Hc).
  rewrite <- Hsplit in Hnode.
  exists (fst (walkAndPush (hierarchy r) (newConcept r) forest)), node.
  split; [|split; assumption].
  unfold addConcept, bind, emit.
  destruct (walkAndPush (hierarchy r) (newConcept r) forest) as [forest' [a|]];
    reflexivity.
Qed.

(** ** All the concept rules of an entity *)

Lemma conceptDiagnostics_located (rs : list ConceptRule) :
  forall forest,
    Forall (fun d => exists a r,
                In r rs /\ In a (hierarchy r)
                /\ d = MissingAncestor a (ruleCode r) (conceptSource r))
           (conceptDiagnostics rs forest).
Proof.
  induction rs as [|r rs IH]; simpl; intros forest; [constructor|].
  assert (Hrest : Forall (fun d => exists a r',
                            (r = r' \/ In r' rs) /\ In a (hierarchy r')
                            /\ d = MissingAncestor a (ruleCode r') (conceptSource r'))
                    (conceptDiagnostics rs (forestAfterRule r forest))).
  { eapply Forall_impl; [|apply IH]. simpl.
    intros d (a & r' & Hin & Ha & ->). exists a, r'. auto. }
  destruct (conceptIndices forest (hierarchy r)) as [p|] eqn:E.
  - now rewrite (walk_found _ (newConcept r) _ _ E).
  - destruct (walk_missing _ (newConcept r) _ E)
      as (a & found & rest & position & Hsplit & _ & _ & Hwalk).
    rewrite Hwalk. constructor; auto.
    exists a, r. repeat split; auto.
    rewrite Hsplit. apply in_elt.
Qed.

Lemma conceptDiagnostics_and_satisfied (rs : list ConceptRule) :
  forall forest,
    List.length (conceptDiagnostics rs forest) + List.length (satisfiedRules rs forest)
    = List.length rs.
Proof.
  induction rs as [|r rs IH]; simpl; intros forest; auto.
  destruct (located_cases r forest) as [(p & Hp & Hw)|(a & Hp & Hw)];
    rewrite Hp, Hw; simpl; rewrite <- (IH (forestAfterRule r forest)); lia.
Qed.

(** X4.  Every concept rule of a list either adds exactly one concept or logs
    exactly one error: the concepts of the resulting forest and the
    diagnostics logged are together as many as the rules.  The diagnostics
    are all missing ancestors, each at the location of a rule of the list and
    naming the code of that rule and one of its ancestor codes.  Nothing but
    the [concept] property of the code system changes. *)
Theorem every_concept_rule_adds_a_concept_or_logs_an_error
    (codeSystem : CodeSystem) (rs : list ConceptRule) (st : State) :
  rs <> [] ->
  exists forest diags,
    setConcepts codeSystem rs st
    = (Returned (withConcepts codeSystem (Some forest)),
       mkState (world st) (codeSystems st) (log st ++ diags)
               (trace st ++ map (fun r => ApplyRule (RConcept r)) rs))
    /\ countConcepts (Some forest) + List.length diags = List.length rs
    /\ Forall (fun d => exists a r,
                   In r rs /\ In a (hierarchy r)
                   /\ d = MissingAncestor a (ruleCode r) (conceptSource r))
              diags.
Proof.
  intros Hrs. exists (forestAfter rs []), (conceptDiagnostics rs []).
  split; [now apply setConcepts_runs|]. split.
  - rewrite forestAfter_count. simpl countConcepts at 1.
    pose proof (conceptDiagnostics_and_satisfied rs []). simpl. lia.
  - apply conceptDiagnostics_located.
Qed.

(** X5.  Without concept rules [setConcepts] leaves the code system and the state
    as they are, whatever [concept] array the code system has; with at least
    one rule the resulting [concept] array is built from the rules alone, and
    the array the code system had is lost: every concept of the result has
    the code of one of the rules, the display of that rule when the rule has
    one that is not empty and no display otherwise, and the same for the
    definition. *)
Theorem setConcepts_keeps_or_replaces_the_concepts
    (codeSystem : CodeSystem) (prior : option (list CodeSystemConcept))
    (rs : list ConceptRule) (st : State) :
  setConcepts codeSystem [] st = (Returned codeSystem, st)
  /\ (rs <> [] ->
      fst (setConcepts (withConcepts codeSystem prior) rs st)
      = fst (setConcepts codeSystem rs st)
      /\ exists forest,
           fst (setConcepts codeSystem rs st)
           = Returned (withConcepts codeSystem (Some forest))
           /\ forall k, In k (allConcepts forest) ->
                        exists r,
                          In r rs
                          /\ code k = ruleCode r
                          /\ display k
                             = match ruleDisplay r with
                               | Some EmptyString => None
                               | given => given
                               end
                          /\ definition k
                             = match ruleDefinition r with
                               | Some EmptyString => None
                               | given => given
                               end).
Proof.
  split; [reflexivity|]. intros Hrs.
  rewrite !setConcepts_runs by assumption. simpl. split; [reflexivity|].
  exists (forestAfter rs []). split; [reflexivity|].
  assert (Hlabel : forall k, In k (allConcepts (forestAfter rs [])) ->
                             exists r, In r rs /\ label k = label (newConcept r));
    [|intros k Hk; destruct (Hlabel k Hk) as (r & Hin & Hl);
      exists r; split; [exact Hin|];
      unfold label, newConcept in Hl; simpl in Hl;
      injection Hl as Hcode Hdisplay Hdefinition;
      split; [exact Hcode|];
      split; [rewrite Hdisplay; destruct (ruleDisplay r) as [[|c v]|]; reflexivity
             |rewrite Hdefinition; destruct (ruleDefinition r) as [[|c v]|];
              reflexivity]].
  assert (Hall : forall rs' forest,
             (forall k, In k (allConcepts forest) ->
                        exists r, In r rs /\ label k = label (newConcept r)) ->
             (forall r, In r rs' -> In r rs) ->
             forall k, In k (allConcepts (forestAfter rs' forest)) ->
                       exists r, In r rs /\ label k = label (newConcept r)).
  { clear Hrs. induction rs' as [|r rs' IH]; intros forest Hf Hsub k Hk; auto.
    rewrite forestAfter_cons in Hk. eapply IH; [| |exact Hk].
    - clear k Hk. intros k Hk. unfold forestAfterRule in Hk.
      assert (Hwalk : forall ancestors container,
                 (forall k, In k (allConcepts container) ->
                            exists r0, In r0 rs /\ label k = label (newConcept r0)) ->
                 forall k,
                   In k (allConcepts (fst (walkAndPush ancestors (newConcept r)
                                             container))) ->
                   exists r0, In r0 rs /\ label k = label (newConcept r0)).
      { clear forest Hf k Hk.
        induction ancestors as [|a ancestors IHa]; intros container Hc k Hk.
        - simpl in Hk. unfold allConcepts in Hk. rewrite flat_map_app in Hk.
          apply in_app_or in Hk. destruct Hk as [Hk|Hk]; [now apply Hc|].
          simpl in Hk. destruct Hk as [<-|[]]. exists r. split; auto.
          apply Hsub. simpl. auto.
        - simpl in Hk.
          destruct (find (hasCode a) container) as [[i x]|] eqn:F; [|now apply Hc].
          apply find_some in F. destruct F as (Hnth & _).
          specialize (IHa (orEmpty (concept x))).
          destruct (walkAndPush ancestors (newConcept r) (orEmpty (concept x)))
            as [below missing].
          simpl in *. unfold allConcepts in Hk. apply in_flat_map in Hk.
          destruct Hk as (y & Hy & Hk).
          apply In_nth_error in Hy. destruct Hy as (j & Hj).
          destruct (Nat.eq_dec i j) as [->|Hij].
          + erewrite nth_error_setAt_same in Hj by eauto. inversion Hj; subst y.
            destruct Hk as [<-|Hk].
            * rewrite label_withConcept. apply Hc. apply nth_error_In in Hnth.
              unfold allConcepts. apply in_flat_map. exists x. simpl. auto.
            * simpl in Hk. apply IHa; auto.
              intros k' Hk'. apply Hc. apply nth_error_In in Hnth.
              unfold allConcepts. apply in_flat_map. exists x. split; auto.
              simpl. right. now rewrite conceptsUnder_orEmpty.
          + rewrite nth_error_setAt_other in Hj by assumption.
            apply Hc. apply nth_error_In in Hj.
            unfold allConcepts. apply in_flat_map. exists y. auto. }
      eapply Hwalk; eauto.
    - intros r0 Hr0. apply Hsub. simpl. auto. }
  apply (Hall rs []); auto. intros k [].
Qed.

(** ** The count *)

Lemma withCount_same (codeSystem : CodeSystem) :
  withCount codeSystem (csCount codeSystem) = codeSystem.
Proof. destruct codeSystem; reflexivity. Qed.

(** X2.  [updateCount] always returns; it changes at most the count, and never a
    count that is set; it logs at most one diagnostic.  It writes the count
    exactly when the content is 'complete', no count is set and there is at
    least one concept.  It logs a mismatch exactly when the content is
    'complete' and a count is set that differs from the number of concepts
    or, the code system having no concept, is whatever number, zero
    included. *)
Theorem updateCount_writes_and_warns_exactly_when
    (codeSystem : CodeSystem) (fshDefinition : FshCodeSystem) (st : State) :
  let total := countConcepts (csConcept codeSystem) in
  exists codeSystem' diags,
    updateCount codeSystem fshDefinition st
    = (Returned codeSystem',
       mkState (world st) (codeSystems st) (log st ++ diags) (trace st))
    /\ codeSystem' = withCount codeSystem (csCount codeSystem')
    /\ (forall count, csCount codeSystem = Some count ->
                      csCount codeSystem' = Some count)
    /\ (csCount codeSystem' <> csCount codeSystem <->
        csContent codeSystem = Some "complete"
        /\ csCount codeSystem = None /\ 0 < total)
    /\ (csCount codeSystem' <> csCount codeSystem ->
        csCount codeSystem' = Some (Z.of_nat total))
    /\ (diags = []
        \/ diags = [CountMismatch (csCount codeSystem)
                      (if Nat.eqb total 0 then None else Some total)
                      (countSource fshDefinition)])
    /\ (diags <> [] <->
        csContent codeSystem = Some "complete"
        /\ exists count,
             csCount codeSystem = Some count
             /\ (count <> Z.of_nat total \/ total = 0)).
Proof.
  intros total.
  assert (Hsame : forall c : CodeSystem,
             (Returned c, st)
             = (Returned c, mkState (world st) (codeSystems st) (log st ++ []) (trace st))).
  { intros c. destruct st. simpl. now rewrite app_nil_r. }
  unfold updateCount, actualCountOf. fold total.
  destruct (sameOpt (csContent codeSystem) (Some "complete")) eqn:Hcontent.
  - apply sameOpt_true in Hcontent.
    destruct (csCount codeSystem) as [c|] eqn:Hc.
    + destruct (Nat.eqb total 0) eqn:Ht.
      * apply Nat.eqb_eq in Ht. simpl.
        exists codeSystem. eexists. unfold bind, logger, ret. simpl.
        split; [reflexivity|]. rewrite Hc.
        split; [symmetry; rewrite <- Hc; apply withCount_same|].
        split; [auto|]. split; [split; [congruence|intros (_ & H & _); discriminate]|].
        split; [congruence|]. split; [right; reflexivity|].
        split; [|discriminate]. intros _. split; auto. exists c. auto.
      * apply Nat.eqb_neq in Ht. simpl.
        destruct (Z.eqb c (Z.of_nat total)) eqn:Hz; simpl.
        -- apply Z.eqb_eq in Hz.
           exists codeSystem, []. unfold ret. rewrite <- Hsame.
           split; [reflexivity|]. rewrite Hc.
           split; [symmetry; rewrite <- Hc; apply withCount_same|].
           split; [auto|].
           split; [split; [congruence|intros (_ & H & _); discriminate]|].
           split; [congruence|]. split; [left; reflexivity|].
           split; [congruence|].
           intros (_ & c' & Hc' & [Hd|Hd]); [congruence|lia].
        -- apply Z.eqb_neq in Hz.
           exists codeSystem. eexists. unfold bind, logger, ret. simpl.
           split; [reflexivity|]. rewrite Hc.
           split; [symmetry; rewrite <- Hc; apply withCount_same|].
           split; [auto|].
           split; [split; [congruence|intros (_ & H & _); discriminate]|].
           split; [congruence|]. split; [right; reflexivity|].
           split; [|discriminate]. intros _. split; auto. exists c. auto.
    + destruct (Nat.eqb total 0) eqn:Ht.
      * apply Nat.eqb_eq in Ht. simpl.
        exists codeSystem, []. unfold ret. rewrite <- Hsame.
        split; [reflexivity|]. rewrite Hc.
        split; [symmetry; rewrite <- Hc; apply withCount_same|].
        split; [discriminate|].
        split; [split; [congruence|intros (_ & _ & H); lia]|].
        split; [congruence|]. split; [left; reflexivity|].
        split; [congruence|]. intros (_ & c' & Hc' & _). discriminate.
      * apply Nat.eqb_neq in Ht.
        exists (withCount codeSystem (Some (Z.of_nat total))), [].
        unfold ret. rewrite <- Hsame. simpl.
        split; [reflexivity|]. split; [reflexivity|].
        split; [discriminate|].
        split; [split; [intros _; repeat split; auto; lia|discriminate]|].
        split; [reflexivity|]. split; [left; reflexivity|].
        split; [congruence|]. intros (_ & c' & Hc' & _). discriminate.
  - apply sameOpt_false in Hcontent.
    exists codeSystem, []. unfold ret. rewrite <- Hsame.
    split; [reflexivity|].
    split; [symmetry; apply withCount_same|].
    split; [auto|].
    split; [split; [congruence|intros (H & _); contradiction]|].
    split; [congruence|]. split; [left; reflexivity|].
    split; [congruence|]. intros (H & _). contradiction.
Qed.

Lemma count_eq_dec (a b : option Z) : {a = b} + {a <> b}.
Proof. decide equality. apply Z.eq_dec. Qed.

(** X3.  The code system [updateCount] returns is one [updateCount] leaves as it
    is; and when the first call wrote the count, a second call logs nothing. *)
Theorem updateCount_settles
    (codeSystem : CodeSystem) (fshDefinition : FshCodeSystem) (st st' : State) :
  exists codeSystem',
    fst (updateCount codeSystem fshDefinition st) = Returned codeSystem'
    /\ fst (updateCount codeSystem' fshDefinition st') = Returned codeSystem'
    /\ (csCount codeSystem' <> csCount codeSystem ->
        updateCount codeSystem' fshDefinition st' = (Returned codeSystem', st')).
Proof.
  assert (Hkept : forall c : CodeSystem,
             fst (updateCount c fshDefinition st) = Returned c ->
             exists codeSystem',
               fst (updateCount c fshDefinition st) = Returned codeSystem'
               /\ fst (updateCount codeSystem' fshDefinition st') = Returned codeSystem'
               /\ (csCount codeSystem' <> csCount c ->
                   updateCount codeSystem' fshDefinition st' = (Returned codeSystem', st'))).
  { intros c Hc. exists c. split; [exact Hc|]. split; [|congruence].
    revert Hc. unfold updateCount.
    destruct (sameOpt (csContent c) (Some "complete")); auto.
    destruct (csCount c) as [n|] eqn:Hcn.
    - destruct (countDiffers (Some n) (actualCountOf c)); reflexivity.
    - destruct (actualCountOf c) as [n|].
      + unfold ret. simpl. intros H. exfalso.
        assert (H' : csCount (withCount c (Some (Z.of_nat n))) = csCount c)
          by congruence.
        simpl in H'. congruence.
      + reflexivity. }
  destruct (sameOpt (csContent codeSystem) (Some "complete")) eqn:Hcontent;
    [|apply Hkept; unfold updateCount; now rewrite Hcontent].
  destruct (csCount codeSystem) as [n|] eqn:Hn.
  - rewrite <- Hn. apply Hkept. unfold updateCount. rewrite Hcontent, Hn.
    destruct (countDiffers (Some n) (actualCountOf codeSystem)); reflexivity.
  - destruct (Nat.eqb (countConcepts (csConcept codeSystem)) 0) eqn:Ht.
    + rewrite <- Hn. apply Hkept. unfold updateCount, actualCountOf.
      rewrite Hcontent, Hn, Ht. reflexivity.
    + exists (withCount codeSystem
                (Some (Z.of_nat (countConcepts (csConcept codeSystem))))).
      split; [unfold updateCount, actualCountOf; rewrite Hcontent, Hn, Ht;
              reflexivity|].
      assert (Hagain : updateCount
                         (withCount codeSystem
                            (Some (Z.of_nat (countConcepts (csConcept codeSystem)))))
                         fshDefinition st'
                       = (Returned
                            (withCount codeSystem
                               (Some (Z.of_nat (countConcepts (csConcept codeSystem))))),
                          st')).
      { unfold updateCount, actualCountOf. simpl. rewrite Hcontent, Ht. simpl.
        now rewrite Z.eqb_refl. }
      split; [now rewrite Hagain|intros _; exact Hagain].
Qed.

(** ** Metadata *)

(** X12.  [setMetadata] leaves the package alone, and the logger receives what
    [setName] and then [setId] report, at the location of the entity, and
    nothing from [setMetadata] itself.  On the code system that [setName]
    and [setId] give, it writes the version of the configuration and a url
    that ends with the id the code system then has; it writes title and
    description only when the entity has non-empty ones, and otherwise
    leaves them as they were; it touches nothing else. *)
Theorem setMetadata_writes_version_url_and_non_empty_texts
    (codeSystem : CodeSystem) (fshDefinition : FshCodeSystem) (st : State) :
  exists named codeSystem' w c1 said1 w1 said2,
    setName (name fshDefinition) (sourceInfo fshDefinition) codeSystem (world st)
    = (c1, said1, w1)
    /\ setId (id fshDefinition) (sourceInfo fshDefinition) c1 w1 = (named, said2, w)
    /\ setMetadata tank codeSystem fshDefinition st
       = (Returned codeSystem',
          mkState w (codeSystems st)
            (log st
             ++ map (fun m => Reported (fst m) (snd m) (sourceInfo fshDefinition))
                    (said1 ++ said2))
            (trace st))
    /\ csVersion codeSystem' = version (config tank)
    /\ csUrl codeSystem'
       = Some (canonical (config tank) ++ "/CodeSystem/" ++ showOpt (csId codeSystem'))
    /\ csTitle codeSystem'
       = (if truthy (title fshDefinition) then title fshDefinition else csTitle named)
    /\ csDescription codeSystem'
       = (if truthy (description fshDefinition)
          then description fshDefinition else csDescription named)
    /\ csName codeSystem' = csName named
    /\ csId codeSystem' = csId named
    /\ csContent codeSystem' = csContent named
    /\ csCount codeSystem' = csCount named
    /\ csConcept codeSystem' = csConcept named
    /\ csOther codeSystem' = csOther named.
Proof.
  unfold setMetadata, bind, report, ret. simpl.
  destruct (setName (name fshDefinition) (sourceInfo fshDefinition) codeSystem (world st))
    as [[c1 said1] w1] eqn:E1. simpl.
  destruct (setId (id fshDefinition) (sourceInfo fshDefinition) c1 w1)
    as [[named said2] w] eqn:E2. simpl.
  exists named. eexists. exists w, c1, said1, w1, said2.
  split; [reflexivity|]. split; [exact E2|].
  split; [rewrite <- app_assoc, map_app; reflexivity|].
  destruct (truthy (title fshDefinition)), (truthy (description fshDefinition));
    simpl; repeat split; reflexivity.
Qed.

(** ** The package and the logger over a run *)

Lemma no_conversion_in (diags : list Diagnostic) :
  Forall (fun d => isConverted d = false) diags -> filter isConverted diags = [].
Proof. apply filter_nothing. Qed.

Lemma exportCodeSystem_report (fshDefinition : FshCodeSystem) st :
  exists added diags events,
    codeSystems (snd (exportCodeSystem tank fshDefinition st))
    = (codeSystems st ++ added)%list
    /\ log (snd (exportCodeSystem tank fshDefinition st)) = (log st ++ diags)%list
    /\ trace (snd (exportCodeSystem tank fshDefinition st)) = (trace st ++ events)%list
    /\ filter isConverted diags = []
    /\ filter isDuplicateId diags
       = match fst (exportCodeSystem tank fshDefinition st) with
         | Returned (Some d) =>
             if existsb (fun cs => sameOpt (csId d) (csId cs)) (codeSystems st)
             then [DuplicateId (csId d) (sourceInfo fshDefinition)]
             else []
         | _ => []
         end
    /\ added = match fst (exportCodeSystem tank fshDefinition st) with
               | Returned (Some d) => [d]
               | _ => []
               end.
Proof.
  pose proof (exportCodeSystem_outcome tank fshDefinition st) as O. simpl in O.
  destruct (exportCodeSystem tank fshDefinition st) as [[[d|]|err] st'].
  - destruct O as (_ & expanded & resolved & said & d1 & d3 & cc & d4
                   & _ & _ & Hpkg & Hlog & Htrace & H1 & H3 & _ & H4 & Hsaid).
    exists [d]. eexists. eexists. simpl.
    split; [exact Hpkg|]. split; [exact Hlog|]. split; [exact Htrace|].
    assert (K1 : forall f, (forall e s, f (RuleFailure e s) = false) ->
                           filter f d1 = [] /\ filter f d3 = []).
    { intros f Hf. split; apply filter_nothing.
      - eapply Forall_impl; [|exact H1]. simpl. intros x (e & r & _ & ->). apply Hf.
      - eapply Forall_impl; [|exact H3]. simpl. intros x (e & r & _ & ->). apply Hf. }
    assert (K2 : forall f, (forall a c s, f (MissingAncestor a c s) = false) ->
                           filter f (conceptDiagnostics (conceptRules expanded) []) = []).
    { intros f Hf. apply filter_nothing.
      eapply Forall_impl; [|apply conceptDiagnostics_kind].
      simpl. intros x (a & r & _ & ->). apply Hf. }
    assert (K4 : forall f, (forall c a s, f (CountMismatch c a s) = false) ->
                           filter f d4 = []).
    { intros f Hf. destruct H4 as [->|(c & a & s & ->)]; simpl; auto.
      now rewrite Hf. }
    assert (K0 : forall f, (forall l t s, f (Reported l t s) = false) ->
                           filter f said = []).
    { intros f Hf. apply filter_nothing.
      eapply Forall_impl; [|exact Hsaid]. intros x (l & t & ->). apply Hf. }
    split; [|split; [|reflexivity]].
    + rewrite !filter_app.
      destruct (K1 isConverted) as (-> & ->); [reflexivity|].
      rewrite (K0 isConverted), (K2 isConverted), (K4 isConverted) by reflexivity.
      destruct (existsb _ _); reflexivity.
    + rewrite !filter_app.
      destruct (K1 isDuplicateId) as (-> & ->); [reflexivity|].
      rewrite (K0 isDuplicateId), (K2 isDuplicateId), (K4 isDuplicateId) by reflexivity.
      destruct (existsb _ _); reflexivity.
  - destruct O as (_ & ->). exists [], [], []. simpl.
    rewrite !app_nil_r. repeat split; reflexivity.
  - destruct O as (_ & Hpkg & (said & Hlog & Hsaid) & Htrace & _).
    exists [], said, [Reached Init; Reached MetadataSet]. simpl.
    rewrite !app_nil_r.
    assert (K0 : forall f, (forall l t s, f (Reported l t s) = false) ->
                           filter f said = []).
    { intros f Hf. apply filter_nothing.
      eapply Forall_impl; [|exact Hsaid]. intros x (l & t & ->). apply Hf. }
    rewrite (K0 isConverted), (K0 isDuplicateId) by reflexivity.
    repeat split; auto.
Qed.

Lemma exportEach_report (entities : list FshCodeSystem) :
  forall st,
  exists st' added diags events,
    exportEach tank entities st = (Returned tt, st')
    /\ codeSystems st' = (codeSystems st ++ added)%list
    /\ List.length added <= List.length entities
    /\ log st' = (log st ++ diags)%list
    /\ filter isConverted diags = []
    /\ trace st' = (trace st ++ events)%list.
Proof.
  induction entities as [|cs rest IH]; intros st.
  - exists st, [], [], []. simpl. rewrite !app_nil_r. repeat split; auto.
  - rewrite exportEach_cons.
    destruct (exportCodeSystem_report cs st)
      as (a1 & d1 & e1 & Hpkg & Hlog & Htrace & Hconv & _ & Hadded).
    destruct (exportCodeSystem tank cs st) as [[o|err] st1]; simpl in *.
    + destruct (IH st1) as (st' & a2 & d2 & e2 & E & Hp2 & Hl2 & Hg2 & Hc2 & Ht2).
      exists st', (a1 ++ a2)%list, (d1 ++ d2)%list, (e1 ++ e2)%list.
      split; [exact E|].
      rewrite Hp2, Hpkg, Hg2, Hlog, Ht2, Htrace, !app_assoc, filter_app, Hconv, Hc2.
      repeat split; auto.
      rewrite length_app. destruct o; subst a1; simpl; lia.
    + match goal with
      | |- context [exportEach tank rest ?s] =>
          destruct (IH s) as (st' & a2 & d2 & e2 & E & Hp2 & Hl2 & Hg2 & Hc2 & Ht2)
      end.
      simpl in *.
      exists st', a2, (d1 ++ EntityFailure err (sourceInfo cs) :: d2)%list,
        (e1 ++ e2)%list.
      split; [exact E|]. subst a1. rewrite app_nil_r in Hpkg.
      rewrite Hp2, Hpkg, Hg2, Hlog, Ht2, Htrace, filter_app, Hconv. simpl.
      rewrite Hc2, <- !app_assoc. simpl. repeat split; auto.
Qed.

(** X16.  [export] always returns the package it ends with, which is the package
    it started with followed by at most one document per entity of the tank:
    no document is removed, changed or moved.  The logger and the trace only
    grow.  The last thing logged is the conversion summary, once and with the
    number of entities of the tank, however many documents were appended;
    with an empty tank nothing is logged and nothing changes. *)
Theorem export_only_appends_and_reports_the_entities (st : State) :
  let entities := getAllCodeSystems tank in
  exists st' added diags events,
    export tank st = (Returned (codeSystems st ++ added)%list, st')
    /\ codeSystems st' = (codeSystems st ++ added)%list
    /\ List.length added <= List.length entities
    /\ log st'
       = (log st ++ diags
          ++ if Nat.ltb 0 (List.length entities)
             then [Converted (List.length entities)] else [])%list
    /\ filter isConverted diags = []
    /\ trace st' = (trace st ++ events)%list
    /\ (entities = [] -> st' = st).
Proof.
  intros entities. unfold export. fold entities.
  destruct (exportEach_report entities st)
    as (st1 & added & diags & events & E & Hpkg & Hlen & Hlog & Hconv & Htrace).
  unfold bind at 1. rewrite E.
  destruct (Nat.ltb 0 (List.length entities)) eqn:Hn.
  - exists (mkState (world st1) (codeSystems st1)
                    (log st1 ++ [Converted (List.length entities)]) (trace st1)),
      added, diags, events.
    unfold bind, logger, getCodeSystems. simpl.
    rewrite Hpkg, Hlog, Htrace, <- app_assoc.
    repeat split; auto.
    intros H. rewrite H in Hn. discriminate.
  - exists st1, added, diags, events.
    unfold bind, ret, getCodeSystems. simpl.
    rewrite Hpkg, Hlog, Htrace, !app_nil_r.
    repeat split; auto.
    intros H. subst entities. rewrite H in E. simpl in E. unfold ret in E.
    congruence.
Qed.

(** X15.  An export that returns a document logs a duplicate-id diagnostic exactly
    when a document of the package already has the id of the new document,
    and then only one, at the location of the entity; an export that is
    skipped or that throws logs none. *)
Theorem duplicate_id_is_logged_exactly_when_the_id_is_taken
    (fshDefinition : FshCodeSystem) (st : State) :
  exists diags,
    log (snd (exportCodeSystem tank fshDefinition st)) = (log st ++ diags)%list
    /\ filter isDuplicateId diags
       = match fst (exportCodeSystem tank fshDefinition st) with
         | Returned (Some d) =>
             if existsb (fun cs => sameOpt (csId d) (csId cs)) (codeSystems st)
             then [DuplicateId (csId d) (sourceInfo fshDefinition)]
             else []
         | _ => []
         end.
Proof.
  destruct (exportCodeSystem_report fshDefinition st)
    as (added & diags & events & _ & Hlog & _ & _ & Hdup & _).
  exists diags. auto.
Qed.

End MoreExporterProperties.

(** * The further properties on the examples *)

Lemma code_path_resolves_or_has_a_first_missing_code_witness :
  Leads (orEmpty (csConcept zooDocument)) ["bear"; "cub"] [0; 0]
  /\ forall q, Leads (orEmpty (csConcept zooDocument)) ["bear"; "cub"] q -> q = [0; 0].
Proof.
  assert (H : Leads (orEmpty (csConcept zooDocument)) ["bear"; "cub"] [0; 0])
    by (apply indices_leads; reflexivity).
  split; [exact H|].
  destruct (code_path_resolves_or_has_a_first_missing_code zooDocument ["bear"; "cub"])
    as (Hone & _).
  intros q Hq. exact (Hone q [0; 0] Hq H).
Defined.

Lemma code_paths_at_the_edges_witness :
  (codePath rootStatus = []
   /\ applyCodeCaretRule plainDefinition rootStatus zooDocument zooState
      = assign plainDefinition ".status" (Text "draft") (here 11) zooDocument
          (mkState (world zooState) (codeSystems zooState) (log zooState)
                   (trace zooState ++ [ApplyRule (RCodeCaretValue rootStatus)])))
  /\ (orEmpty (csConcept nothingCounted) = []
      /\ findConceptPath nothingCounted ["bear"; "cub"]
         = inl (CannotResolvePathError "#bear #cub")).
Proof.
  destruct (code_paths_at_the_edges plainDefinition rootStatus zooDocument zooState)
    as (_ & Hroot & _).
  destruct (code_paths_at_the_edges plainDefinition rootStatus nothingCounted zooState)
    as (_ & _ & Hnone).
  split.
  - split; [reflexivity|]. exact (Hroot eq_refl).
  - split; [reflexivity|]. exact (Hnone eq_refl "bear" ["cub"]).
Defined.

Lemma concept_path_text_tells_the_positions_witness :
  findConceptPath zooDocument ["bear"] = inr "concept[0]"
  /\ findConceptPath otherZooDocument ["zebra"] = inr "concept[0]"
  /\ exists positions,
       Leads (orEmpty (csConcept zooDocument)) ["bear"] positions
       /\ Leads (orEmpty (csConcept otherZooDocument)) ["zebra"] positions
       /\ List.length ["bear"] = List.length ["zebra"].
Proof.
  assert (H1 : findConceptPath zooDocument ["bear"] = inr "concept[0]") by reflexivity.
  assert (H2 : findConceptPath otherZooDocument ["zebra"] = inr "concept[0]")
    by reflexivity.
  split; [exact H1|]. split; [exact H2|].
  exact (concept_path_text_tells_the_positions
           zooDocument otherZooDocument ["bear"] ["zebra"] "concept[0]" H1 H2).
Defined.

Lemma concept_positions_never_move_witness :
  [bear] <> []
  /\ fst (setConcepts (D := plainDomain) emptyCodeSystem [bear] (startWith []))
     = Returned (withConcepts emptyCodeSystem (Some (forestAfter [bear] [])))
  /\ fst (setConcepts (D := plainDomain) emptyCodeSystem ([bear] ++ [zebra; cub])
            (startWith []))
     = Returned (withConcepts emptyCodeSystem (Some (forestAfter [bear; zebra; cub] [])))
  /\ findConceptPath (withConcepts emptyCodeSystem (Some (forestAfter [bear] [])))
       ["bear"]
     = inr "concept[0]"
  /\ findConceptPath
       (withConcepts emptyCodeSystem (Some (forestAfter [bear; zebra; cub] [])))
       ["bear"]
     = inr "concept[0]".
Proof.
  assert (H0 : [bear] <> []) by discriminate.
  assert (H1 : fst (setConcepts (D := plainDomain) emptyCodeSystem [bear] (startWith []))
               = Returned (withConcepts emptyCodeSystem (Some (forestAfter [bear] []))))
    by reflexivity.
  assert (H2 : fst (setConcepts (D := plainDomain) emptyCodeSystem
                      ([bear] ++ [zebra; cub]) (startWith []))
               = Returned (withConcepts emptyCodeSystem
                             (Some (forestAfter [bear; zebra; cub] []))))
    by reflexivity.
  assert (H3 : findConceptPath
                 (withConcepts emptyCodeSystem (Some (forestAfter [bear] [])))
                 ["bear"]
               = inr "concept[0]") by reflexivity.
  split; [exact H0|]. split; [exact H1|]. split; [exact H2|]. split; [exact H3|].
  exact (concept_positions_never_move (D := plainDomain) emptyCodeSystem
           [bear] [zebra; cub] (startWith []) (startWith []) _ _ ["bear"] _
           H0 H1 H2 H3).
Defined.

Lemma inserted_concepts_are_addressable_witness :
  In cub (satisfiedRules [bear; foal; cub] [])
  /\ fst (setConcepts (D := plainDomain) emptyCodeSystem [bear; foal; cub] (startWith []))
     = Returned (withConcepts emptyCodeSystem (Some (forestAfter [bear; foal; cub] [])))
  /\ exists positions,
       findConceptPath
         (withConcepts emptyCodeSystem (Some (forestAfter [bear; foal; cub] [])))
         (hierarchy cub ++ [ruleCode cub])
       = inr (dotted positions)
       /\ List.length positions = S (List.length (hierarchy cub)).
Proof.
  assert (H1 : In cub (satisfiedRules [bear; foal; cub] [])) by (simpl; auto).
  assert (H2 : fst (setConcepts (D := plainDomain) emptyCodeSystem [bear; foal; cub]
                      (startWith []))
               = Returned (withConcepts emptyCodeSystem
                             (Some (forestAfter [bear; foal; cub] []))))
    by reflexivity.
  split; [exact H1|]. split; [exact H2|].
  exact (inserted_concepts_are_addressable (D := plainDomain) emptyCodeSystem
           [bear; foal; cub] (startWith []) _ cub H1 H2).
Defined.

Lemma found_ancestors_get_a_concept_array_witness :
  hierarchy strayFoal = (["bear"] ++ ["horse"])%list
  /\ ["bear"] <> []
  /\ Leads [newConcept bear] ["bear"] [0]
  /\ concept (newConcept bear) = None
  /\ exists forest' node,
       fst (addConcept (D := plainDomain) strayFoal [newConcept bear] (startWith []))
       = Returned forest'
       /\ nodeAt [0] forest' = Some node
       /\ concept node <> None.
Proof.
  assert (H1 : hierarchy strayFoal = (["bear"] ++ ["horse"])%list) by reflexivity.
  assert (H2 : ["bear"] <> []) by discriminate.
  assert (H3 : Leads [newConcept bear] ["bear"] [0])
    by (apply indices_leads; reflexivity).
  split; [exact H1|]. split; [exact H2|]. split; [exact H3|].
  split; [reflexivity|].
  exact (found_ancestors_get_a_concept_array (D := plainDomain) strayFoal
           [newConcept bear] ["bear"] ["horse"] [0] (startWith []) H1 H2 H3).
Defined.

Lemma every_concept_rule_adds_a_concept_or_logs_an_error_witness :
  [bear; foal; zebra] <> []
  /\ exists forest (diags : list Diagnostic),
       fst (setConcepts (D := plainDomain) emptyCodeSystem [bear; foal; zebra]
              (startWith []))
       = Returned (withConcepts emptyCodeSystem (Some forest))
       /\ countConcepts (Some forest) + List.length diags = 3.
Proof.
  assert (H : [bear; foal; zebra] <> []) by discriminate.
  split; [exact H|].
  destruct (every_concept_rule_adds_a_concept_or_logs_an_error (D := plainDomain)
              emptyCodeSystem [bear; foal; zebra] (startWith []) H)
    as (forest & diags & E & Hcount & _).
  exists forest, diags. split; [now rewrite E|exact Hcount].
Defined.

Lemma setConcepts_keeps_or_replaces_the_concepts_witness :
  [bear] <> []
  /\ fst (setConcepts (D := plainDomain)
            (withConcepts emptyCodeSystem (Some [newConcept zebra])) [bear]
            (startWith []))
     = fst (setConcepts (D := plainDomain) emptyCodeSystem [bear] (startWith [])).
Proof.
  assert (H : [bear] <> []) by discriminate.
  split; [exact H|].
  destruct (setConcepts_keeps_or_replaces_the_concepts (D := plainDomain)
              emptyCodeSystem (Some [newConcept zebra]) [bear] (startWith []))
    as (_ & Hreplace).
  exact (proj1 (Hreplace H)).
Defined.

Lemma updateCount_writes_and_warns_exactly_when_witness :
  csContent nothingCounted = Some "complete"
  /\ csCount nothingCounted = Some 0%Z
  /\ countConcepts (csConcept nothingCounted) = 0
  /\ log (snd (updateCount nothingCounted zoo (startWith [])))
     = [CountMismatch (Some 0%Z) None (here 1)].
Proof.
  split; [reflexivity|]. split; [reflexivity|]. split; [reflexivity|].
  destruct (updateCount_writes_and_warns_exactly_when nothingCounted zoo (startWith []))
    as (c' & diags & E & _ & _ & _ & _ & Hshape & Hwarn).
  rewrite E. simpl.
  destruct Hshape as [Hnone|Hone]; [|exact Hone].
  exfalso. apply (proj2 Hwarn); [|exact Hnone].
  split; [reflexivity|]. exists 0%Z. split; [reflexivity|]. right. reflexivity.
Defined.

Lemma updateCount_settles_witness :
  exists codeSystem',
    fst (updateCount (zooWith "complete" None) zoo (startWith [])) = Returned codeSystem'
    /\ csCount codeSystem' <> csCount (zooWith "complete" None)
    /\ updateCount codeSystem' zoo zooState = (Returned codeSystem', zooState).
Proof.
  destruct (updateCount_settles (zooWith "complete" None) zoo (startWith []) zooState)
    as (c' & H1 & _ & H3).
  exists c'. split; [exact H1|].
  assert (Hne : csCount c' <> csCount (zooWith "complete" None)).
  { vm_compute in H1. inversion H1. discriminate. }
  split; [exact Hne|exact (H3 Hne)].
Defined.

Lemma export_only_appends_and_reports_the_entities_witness :
  getAllCodeSystems emptyTank = []
  /\ export emptyTank zooState = (Returned (codeSystems zooState), zooState).
Proof.
  split; [reflexivity|].
  destruct (export_only_appends_and_reports_the_entities emptyTank zooState)
    as (st' & added & diags & events & E & _ & Hlen & _ & _ & _ & Hempty).
  rewrite E. rewrite (Hempty eq_refl).
  destruct added as [|d added]; [|simpl in Hlen; lia].
  now rewrite app_nil_r.
Defined.

(** * The loops over the rules, and one export *)

Section RuleLoops.
Context {D : Domain} {C : Collaborators}.
Variable tank : FSHTank.





End RuleLoops.
